(** * Verification of [util.py]: graph generators and the Friedkin-Johnsen
    equilibrium.

    The numpy arrays of the source are modelled by MathComp matrices over an
    arbitrary real field [F] (exact arithmetic stands for float64; no
    rounding, no inf, no nan).  Where numpy would produce inf or nan, or raise,
    the model returns an explicit failure.  The global random number generator
    is modelled by the stream [draws] of the values that successive calls of
    [rand.random()] return, threaded through the code as a counter, and by the
    permutation [nodes] that [rand.permutation(N)] returns. *)

From HB Require Import structures.
From mathcomp Require Import boot order.
From mathcomp Require Import fingroup perm.
From mathcomp Require Import ssralg ssrnum ssrint rat matrix.

Set Implicit Arguments.
Unset Strict Implicit.
Unset Printing Implicit Defensive.

Import Order.TTheory GRing.Theory Num.Theory.
Local Open Scope ring_scope.

(** ** Exceptions of the source *)

(** [RuntimeError] is raised by [rchoice]; [LinAlgError] is what
    [numpy.linalg.inv] raises on a singular matrix. *)
Inductive exn : Type := RuntimeError | LinAlgError.

Inductive result (T : Type) : Type :=
| Return of T
| Raise of exn.

Arguments Return {T} _.
Arguments Raise {T} _.

Section Util.

Variable F : realFieldType.

(** ** The random number generator *)

(** [draws k] is the value of the [k]-th call of [rand.random()]. *)
Variable draws : nat -> F.

(** A call of [rand.random()] at generator state [c]. *)
Definition random (c : nat) : F * nat := (draws c, c.+1).

(** ** rchoice *)

(** [np.nonzero(weights)[0]]: the indices of the nonzero entries, ascending. *)
Definition nonzero (weights : seq F) : seq nat :=
  [seq i <- iota 0 (size weights) | nth 0 weights i != 0].

(** The [for] loop of [rchoice], from the running sum [s]. *)
Fixpoint rchoice_loop (weights : seq F) (r s : F) (idx : seq nat)
  : result nat :=
  if idx is i :: idx' then
    let s' := s + nth 0 weights i in
    if r <= s' then Return i else rchoice_loop weights r s' idx'
  else Raise RuntimeError.

(** [rchoice] with the uniform draw [r] made explicit. *)
Definition rchoice_with (weights : seq F) (r : F) : result nat :=
  rchoice_loop weights r 0 (nonzero weights).

Definition rchoice (weights : seq F) (c : nat) : result nat * nat :=
  let: (r, c') := random c in (rchoice_with weights r, c').

(** The value of [s] after the loop has gone through the indices [idx]. *)
Definition running_sum (weights : seq F) (idx : seq nat) : F :=
  foldl (fun s i => s + nth 0 weights i) 0 idx.

(** ** Matrix operations *)

(** Row [i] of [A.sum(axis=1)]. *)
Definition row_sum (m n : nat) (A : 'M[F]_(m, n)) (i : 'I_m) : F :=
  \sum_j A i j.

(** [A / A.sum(axis=1, keepdims=True)].  Where a row sum is zero numpy
    divides by zero and fills the row with inf or nan; the model has no such
    values and answers [None]. *)
Definition rowStochastic (m n : nat) (A : 'M[F]_(m, n))
  : option 'M[F]_(m, n) :=
  if [forall i, row_sum A i != 0]
  then Some (\matrix_(i, j) (A i j / row_sum A i))
  else None.

(** [B = copy of A; B[B > 0] = 1]. *)
Definition binarize (m n : nat) (A : 'M[F]_(m, n)) : 'M[F]_(m, n) :=
  \matrix_(i, j) (if 0 < A i j then 1 else A i j).

(** [np.mean] of the row sums of the thresholded matrix; the mean of an
    empty vector is nan in numpy, [None] here. *)
Definition meanDegree (n : nat) (A : 'M[F]_n) : option F :=
  let B := binarize A in
  let degrees := row_sum B in
  if n == 0%N then None else Some ((\sum_i degrees i) / n%:R).

(** ** randomSpanningTree *)

(** The assignment [A[i, j] = w]. *)
Definition set_entry (n : nat) (A : 'M[F]_n) (i j : 'I_n) (w : F) : 'M[F]_n :=
  \matrix_(a, b) (if (a == i) && (b == j) then w else A a b).

(** The index [i - 1], inside the bounds as [i] is. *)
Definition ord_pred (n : nat) (i : 'I_n) : 'I_n :=
  Ordinal (leq_ltn_trans (leq_pred i) (ltn_ord i)).

(** [range(1, N)]. *)
Definition range_from1 (n : nat) : seq 'I_n :=
  [seq i : 'I_n <- enum 'I_n | (0 < i)%N].

(** One turn of the loop of [randomSpanningTree], on the matrix and the
    generator state. *)
Definition tree_body (n : nat) (rand_weights : bool) (nodes : 'S_n)
    (st : 'M[F]_n * nat) (i : 'I_n) : 'M[F]_n * nat :=
  let: (A, c) := st in
  let: (w, c1) := if rand_weights then random c else (1, c) in
  let A1 := set_entry A (nodes (ord_pred i)) (nodes i) w in
  (set_entry A1 (nodes i) (nodes (ord_pred i)) w, c1).

(** [nodes] is the value of [rand.permutation(N)]. *)
Definition randomSpanningTree (n : nat) (rand_weights : bool) (nodes : 'S_n)
    (c : nat) : 'M[F]_n * nat :=
  foldl (tree_body rand_weights nodes) (0, c) (range_from1 n).

(** The weight that a turn of the loop uses at generator state [c]. *)
Definition tree_weight (rand_weights : bool) (c : nat) : F :=
  if rand_weights then draws c else 1.

(** The turn [i] of the loop writes the entry [(a, b)]. *)
Definition tree_link (n : nat) (nodes : 'S_n) (i a b : 'I_n) : bool :=
  ((a == nodes (ord_pred i)) && (b == nodes i))
  || ((a == nodes i) && (b == nodes (ord_pred i))).

(** The edge that the turn [i] adds, smaller end first. *)
Definition tree_edge (n : nat) (nodes : 'S_n) (i : 'I_n) : 'I_n * 'I_n :=
  if (nodes (ord_pred i) <= nodes i)%N then (nodes (ord_pred i), nodes i)
  else (nodes i, nodes (ord_pred i)).

(** ** gnp *)

(** The body of the inner loop of [gnp] at the pair [(i, j)]. *)
Definition gnp_body (n : nat) (p : F) (rand_weights : bool) (i : 'I_n)
    (st : 'M[F]_n * nat) (j : 'I_n) : 'M[F]_n * nat :=
  let: (A, c) := st in
  let: (r, c1) := random c in
  if r < p then
    let: (w, c2) := if rand_weights then random c1 else (1, c1) in
    (set_entry (set_entry A i j w) j i w, c2)
  else (A, c1).

(** The two nested loops of [gnp]. *)
Definition gnp_loops (n : nat) (p : F) (rand_weights : bool)
    (st : 'M[F]_n * nat) : 'M[F]_n * nat :=
  foldl (fun st1 i => foldl (gnp_body p rand_weights i) st1 (enum 'I_n))
        st (enum 'I_n).

(** The pairs [(i, j)], in the order in which the loops go through them. *)
Definition gnp_pairs (n : nat) : seq ('I_n * 'I_n) :=
  [seq (i, j) | i <- enum 'I_n, j <- enum 'I_n].

(** The matrix and the generator state when the loops, started in [st],
    reach the pair [e]. *)
Definition gnp_reach (n : nat) (p : F) (rand_weights : bool)
    (st : 'M[F]_n * nat) (e : 'I_n * 'I_n) : 'M[F]_n * nat :=
  foldl (fun st1 ij => gnp_body p rand_weights ij.1 st1 ij.2) st
        (take (index e (gnp_pairs n)) (gnp_pairs n)).

(** [gnp] up to the normalization: the spanning tree, built without weights
    as in the source, which calls [randomSpanningTree(N)], then the loops. *)
Definition gnp_edges (n : nat) (p : F) (rand_weights : bool) (nodes : 'S_n)
    (c : nat) : 'M[F]_n * nat :=
  gnp_loops p rand_weights (randomSpanningTree false nodes c).

(** [gnp]; the report printed under [verbose] does not change the result and
    is left out. *)
Definition gnp (n : nat) (p : F) (rand_weights : bool) (nodes : 'S_n)
    (c : nat) : option 'M[F]_n * nat :=
  let: (A, c1) := gnp_edges p rand_weights nodes c in
  (if rand_weights then rowStochastic A else Some A, c1).

(** The generator state when the loops of [gnp] reach the pair [(i, i)]. *)
Definition gnp_self_state (n : nat) (p : F) (rand_weights : bool)
    (nodes : 'S_n) (c : nat) (i : 'I_n) : nat :=
  (gnp_reach p rand_weights (randomSpanningTree false nodes c) (i, i)).2.

(** ** expectedEquilibrium *)

(** [np.diag(np.diag(A))]. *)
Definition diag_part (n : nat) (A : 'M[F]_n) : 'M[F]_n :=
  diag_mx (\row_i A i i).

(** [numpy.linalg.inv], which raises [LinAlgError] on a singular matrix. *)
Definition inv (n : nat) (M : 'M[F]_n) : result 'M[F]_n :=
  if M \in unitmx then Return (invmx M) else Raise LinAlgError.

Definition expectedEquilibrium (n : nat) (A : 'M[F]_n) (s : 'cV[F]_n)
  : result 'cV[F]_n :=
  let B := diag_part A in
  if inv (1%:M - (A - B)) is Return Mi then Return (Mi *m B *m s)
  else Raise LinAlgError.

(** ** Graphs read off an adjacency matrix *)

(** There is an edge from [i] to [j] when the entry is nonzero. *)
Definition adjacent (n : nat) (A : 'M[F]_n) : rel 'I_n :=
  fun i j => A i j != 0.

Definition symmetric_mx (n : nat) (A : 'M[F]_n) : Prop :=
  forall i j, A i j = A j i.

(** The undirected edges: unordered pairs, each listed once with its
    smaller end first; a loop [(i, i)] is an edge. *)
Definition edges (n : nat) (A : 'M[F]_n) : {set 'I_n * 'I_n} :=
  [set e : 'I_n * 'I_n | (e.1 <= e.2)%N && adjacent A e.1 e.2].

(** The same without the loops. *)
Definition proper_edges (n : nat) (A : 'M[F]_n) : {set 'I_n * 'I_n} :=
  [set e : 'I_n * 'I_n | (e.1 < e.2)%N && adjacent A e.1 e.2].

(** Every entry is 0 or 1. *)
Definition binary_mx (n : nat) (A : 'M[F]_n) : Prop :=
  forall i j, (A i j == 0) || (A i j == 1).

(** One connected component over all the nodes. *)
Definition connected (n : nat) (A : 'M[F]_n) : Prop :=
  forall i j, connect (adjacent A) i j.

(** The number of distinct neighbours of node [i], an entry counting as an
    edge when it is positive. *)
Definition degree (n : nat) (A : 'M[F]_n) (i : 'I_n) : nat :=
  #|[set j | 0 < A i j]|.

End Util.

Arguments tree_body : simpl never.
Arguments gnp_body : simpl never.

(** ** Example inputs, over the rationals *)

(** The matrix [[1, 3], [1, 3]]. *)
Definition ex_rows : 'M[rat]_2 :=
  \matrix_(i, j) (if (j == 0 :> nat) then 1 else 3%:R).

(** The matrix [[1, -1], [1, 1]]: no row is all zeros, the first sums to 0. *)
Definition ex_signed : 'M[rat]_2 :=
  \matrix_(i, j) (if (i == 0 :> nat) && (j == 1 :> nat) then -1 else 1).

(** The matrix [[1]]: one node with a loop. *)
Definition ex_loop : 'M[rat]_1 := const_mx 1.

(** The matrix [[0, 1], [1, 0]]: two nodes joined by an edge. *)
Definition ex_path : 'M[rat]_2 := \matrix_(i, j) (if i == j then 0 else 1).

(** The matrix [[0, 1/2], [1/2, 0]]: the same edge with weight 1/2. *)
Definition ex_wpath : 'M[rat]_2 :=
  \matrix_(i, j) (if i == j then 0 else 1 / 2%:R).

(** The matrix [[1/2]] and the belief vector [5]. *)
Definition ex_half : 'M[rat]_1 := const_mx (1 / 2%:R).

Definition ex_belief : 'cV[rat]_1 := const_mx 5%:R.

(** The matrix [[1, 0], [1/2, 1/2]]: node 0 keeps its belief, node 1 weighs
    its own and that of node 0 equally; and the belief vector [0, 1]. *)
Definition ex_follow : 'M[rat]_2 :=
  \matrix_(i, j) (if (i == 0 :> nat) then (j == 0 :> nat)%:R else 1 / 2%:R).

Definition ex_beliefs : 'cV[rat]_2 := \col_i (i : nat)%:R.

(** What the solver computes on [ex_follow], and a belief shared by both
    nodes. *)
Definition ex_follow_solution (s : 'cV[rat]_2) : 'cV[rat]_2 :=
  invmx (1%:M - (ex_follow - diag_part ex_follow)) *m diag_part ex_follow *m s.

Definition ex_shared : 'cV[rat]_2 := const_mx 5%:R.

(** The weight vector [0, 1/4, 0, 3/4]. *)
Definition ex_weights : seq rat := [:: 0; 1 / 4%:R; 0; 3%:R / 4%:R].

(** A generator whose draws are 0, 1/2, 2/3, 3/4, ... *)
Definition ex_ramp : nat -> rat := fun k => k%:R / k.+1%:R.

(** A generator whose every draw is 0. *)
Definition ex_zero_draws : nat -> rat := fun _ => 0.

(** A generator whose every draw is 1/2. *)
Definition ex_draws : nat -> rat := fun _ => 1 / 2%:R.

(** * Properties *)

(** ** rchoice *)

Section RchoiceTheory.

Variable F : realFieldType.
Implicit Types (weights : seq F) (r s : F) (idx : seq nat).

Lemma mem_nonzero weights i :
  (i \in nonzero weights) = (i < size weights)%N && (nth 0 weights i != 0).
Proof. by rewrite /nonzero mem_filter mem_iota /= add0n andbC. Qed.

Lemma rchoice_loop_mem weights r s idx i :
  rchoice_loop weights r s idx = Return i -> i \in idx.
Proof.
elim: idx s => [|j idx IH] s //=.
case: ifP => _; first by case=> ->; rewrite mem_head.
by move/IH; rewrite in_cons orbC => ->.
Qed.

Lemma rchoice_loop_exn weights r s idx e :
  rchoice_loop weights r s idx = Raise e -> e = RuntimeError.
Proof.
elim: idx s => [|j idx IH] s /=; first by case.
by case: ifP => _ //; apply: IH.
Qed.

(** The loop fails exactly when no value taken by the running sum reaches
    the draw. *)
Lemma rchoice_loop_raise weights r s idx :
  rchoice_loop weights r s idx = Raise RuntimeError <->
  (forall k, (k < size idx)%N ->
     foldl (fun s0 i => s0 + nth 0 weights i) s (take k.+1 idx) < r).
Proof.
elim: idx s => [|j idx IH] s /=; first by split.
case: ifP => [le_r|/negbT]; [split=> // /(_ 0%N isT)|rewrite -ltNge => lt_r].
  by rewrite /= take0 /= ltNge le_r.
split=> [/IH H [_|k]|H]; first by rewrite take0.
- by rewrite ltnS => /H.
- by apply/IH => k lt_k; apply: (H k.+1).
Qed.

Lemma running_sum_nonneg weights idx :
  (forall i, 0 <= nth 0 weights i) -> 0 <= running_sum weights idx.
Proof.
move=> w_ge0; rewrite /running_sum.
suff H s : 0 <= s -> 0 <= foldl (fun s0 i => s0 + nth 0 weights i) s idx.
  exact: H.
elim: idx s => [|i idx IH] s s_ge0 //=.
by apply: IH; rewrite addr_ge0.
Qed.

Lemma running_sum_cat weights idx1 idx2 :
  running_sum weights (idx1 ++ idx2) =
  running_sum weights idx1 + running_sum weights idx2.
Proof.
rewrite /running_sum foldl_cat.
elim: idx2 (foldl _ 0 idx1) => [|i idx2 IH] s /=; first by rewrite addr0.
by rewrite IH [in RHS]IH add0r addrA.
Qed.

Lemma running_sum_total weights :
  running_sum weights (nonzero weights) = \sum_(w <- weights) w.
Proof.
rewrite /nonzero -[in RHS](mkseq_nth 0 weights) big_map /mkseq /index_iota.
elim: (iota 0 (size weights)) => [|i l IH]; first by rewrite big_nil.
rewrite big_cons /=; case: eqP => [->|_] /=; first by rewrite add0r.
by rewrite -cat1s running_sum_cat IH /running_sum /= add0r.
Qed.

Lemma nonzero_all0 weights : all (eq_op^~ 0) weights -> nonzero weights = [::].
Proof.
move=> /all_nthP w0.
rewrite /nonzero (@eq_in_filter _ _ pred0) ?filter_pred0 // => i.
by rewrite mem_iota add0n /= => /(w0 0) /= /eqP ->; rewrite eqxx.
Qed.

(** The sampler fails exactly when no value of the running sum over the
    nonzero weights reaches the draw. *)
Lemma rchoice_with_raise weights r :
  (forall k, (k < size (nonzero weights))%N ->
     running_sum weights (take k.+1 (nonzero weights)) < r) <->
  rchoice_with weights r = Raise RuntimeError.
Proof. by split=> /rchoice_loop_raise. Qed.

Lemma rchoice_with_cases weights r :
  (exists2 i, rchoice_with weights r = Return i & (i < size weights)%N)
  \/ rchoice_with weights r = Raise RuntimeError.
Proof.
rewrite /rchoice_with.
case E: (rchoice_loop _ _ _ _) => [i|e]; last first.
  by right; rewrite (rchoice_loop_exn E).
left; exists i => //.
by have := rchoice_loop_mem E; rewrite mem_nonzero => /andP[].
Qed.

Variable draws : nat -> F.

(** C6: [rchoice] returns an index inside the bounds of the weight vector or
    raises its error; it raises when the running sum over the nonzero
    weights never reaches the value [draws c] that it draws (and only then),
    so on a vector of zeros whatever the draw, and on nonnegative weights
    whose total is below the draw. *)
Theorem rchoice_returns_valid_index_or_fails weights c :
  [/\ (exists2 i, (rchoice draws weights c).1 = Return i
                 & (i < size weights)%N)
       \/ (rchoice draws weights c).1 = Raise RuntimeError,
      (forall k, (k < size (nonzero weights))%N ->
         running_sum weights (take k.+1 (nonzero weights)) < draws c) <->
      (rchoice draws weights c).1 = Raise RuntimeError,
      all (eq_op^~ 0) weights ->
      (rchoice draws weights c).1 = Raise RuntimeError
    & (forall i, 0 <= nth 0 weights i) -> \sum_(w <- weights) w < draws c ->
      (rchoice draws weights c).1 = Raise RuntimeError].
Proof.
rewrite /rchoice /=; split.
- exact: rchoice_with_cases.
- exact: rchoice_with_raise.
- by move=> /nonzero_all0 w0; rewrite /rchoice_with w0.
- move=> w_ge0 lt_r; apply/rchoice_with_raise => k lt_k.
  apply: le_lt_trans lt_r; rewrite -running_sum_total.
  rewrite -[in leRHS](cat_take_drop k.+1 (nonzero weights)) running_sum_cat.
  by rewrite lerDl running_sum_nonneg.
Qed.

(** C7: an index that [rchoice] returns has a nonzero weight, whatever the
    weights and the draw. *)
Theorem rchoice_never_returns_zero_weight weights c i :
  (rchoice draws weights c).1 = Return i -> nth 0 weights i != 0.
Proof.
by rewrite /rchoice /= => /rchoice_loop_mem; rewrite mem_nonzero => /andP[].
Qed.

End RchoiceTheory.

(** The sampler on the weights [0, 1] with a draw of 1/2, over the
    rationals: index 1 is returned. *)
Lemma rchoice_example :
  (rchoice ex_draws [:: 0; 1] 0).1 = Return 1%N.
Proof. by rewrite /rchoice /rchoice_with /nonzero /=. Qed.

(** On a vector of zeros it raises. *)
Lemma rchoice_zeros_example :
  (rchoice ex_draws [:: 0; 0] 0).1 = Raise RuntimeError.
Proof. by rewrite /rchoice /rchoice_with /nonzero /=. Qed.

Lemma rchoice_never_returns_zero_weight_witness :
  (rchoice ex_draws [:: 0; 1] 0).1 = Return 1%N /\
  nth 0 [:: 0; 1 : rat] 1 != 0.
Proof.
split; first exact: rchoice_example.
exact: (@rchoice_never_returns_zero_weight _ ex_draws [:: 0; 1] 0 1%N
          rchoice_example).
Defined.

(** ** rowStochastic *)

Section RowStochasticTheory.

Variable F : realFieldType.

Lemma rowStochastic_defined m n (A : 'M[F]_(m, n)) :
  (forall i, row_sum A i != 0) ->
  rowStochastic A = Some (\matrix_(i, j) (A i j / row_sum A i)).
Proof. by rewrite /rowStochastic => /forallP ->. Qed.

Lemma rowStochastic_undefined m n (A : 'M[F]_(m, n)) i :
  row_sum A i = 0 -> rowStochastic A = None.
Proof.
move=> s0; rewrite /rowStochastic; case: ifP => // /forallP /(_ i).
by rewrite s0 eqxx.
Qed.

Lemma row_sum_normalized m n (A : 'M[F]_(m, n)) i :
  row_sum A i != 0 ->
  row_sum (\matrix_(i0, j) (A i0 j / row_sum A i0)) i = 1.
Proof.
move=> s_neq0; rewrite /row_sum.
under eq_bigr do rewrite mxE.
by rewrite -mulr_suml divff.
Qed.

(** C5: when no row of [A] sums to zero, [rowStochastic A] is the matrix of
    the entries [A i j / (sum of row i)], and each of its rows sums to 1. *)
Theorem rowStochastic_rows_sum_to_one m n (A : 'M[F]_(m, n)) :
  (forall i, row_sum A i != 0) ->
  exists R, [/\ rowStochastic A = Some R,
                forall i j, R i j = A i j / row_sum A i
              & forall i, row_sum R i = 1].
Proof.
move=> s_neq0; exists (\matrix_(i, j) (A i j / row_sum A i)).
split; first exact: rowStochastic_defined.
- by move=> i j; rewrite mxE.
- by move=> i; apply: row_sum_normalized.
Qed.

(** C8, as amended: when no row of [A] sums to zero, normalizing the
    normalized matrix again gives it back. *)
Theorem rowStochastic_idempotent m n (A : 'M[F]_(m, n)) :
  (forall i, row_sum A i != 0) ->
  exists R, rowStochastic A = Some R /\ rowStochastic R = Some R.
Proof.
move=> s_neq0; exists (\matrix_(i, j) (A i j / row_sum A i)).
split; first exact: rowStochastic_defined.
have sR_neq0 i : row_sum (\matrix_(i0, j) (A i0 j / row_sum A i0)) i != 0.
  by rewrite row_sum_normalized ?oner_neq0.
rewrite (rowStochastic_defined sR_neq0).
congr Some; apply/matrixP => i j.
by rewrite mxE row_sum_normalized // divr1.
Qed.

(** C10: when every row sum of [A] is positive, an entry of
    [rowStochastic A] is positive exactly when that of [A] is, and zero
    exactly when that of [A] is; the graph of a square matrix keeps its
    edges and its connectivity. *)
Theorem rowStochastic_preserves_pattern n (A : 'M[F]_n) :
  (forall i, 0 < row_sum A i) ->
  exists R, [/\ rowStochastic A = Some R,
                forall i j, (0 < R i j) = (0 < A i j),
                forall i j, (R i j == 0) = (A i j == 0),
                adjacent R =2 adjacent A
              & connected R <-> connected A].
Proof.
move=> s_gt0; exists (\matrix_(i, j) (A i j / row_sum A i)).
have s_neq0 i : row_sum A i != 0 by rewrite gt_eqF.
have zeroE i j :
    ((\matrix_(i0, j0) (A i0 j0 / row_sum A i0)) i j == 0) = (A i j == 0).
  by rewrite mxE mulf_eq0 invr_eq0 (negPf (s_neq0 i)) orbF.
have adjE : adjacent (\matrix_(i, j) (A i j / row_sum A i)) =2 adjacent A.
  by move=> i j; rewrite /adjacent zeroE.
split=> //; first exact: rowStochastic_defined.
- by move=> i j; rewrite mxE pmulr_lgt0 // invr_gt0.
- by split=> conn i j; rewrite ?(eq_connect adjE) // -(eq_connect adjE).
Qed.

End RowStochasticTheory.

Lemma ex_rows_sum i : row_sum ex_rows i = 4%:R.
Proof. by rewrite /row_sum big_ord_recl big_ord1 !mxE. Qed.

Lemma rowStochastic_rows_sum_to_one_witness :
  (forall i, row_sum ex_rows i != 0) /\
  exists R, [/\ rowStochastic ex_rows = Some R,
                forall i j, R i j = ex_rows i j / row_sum ex_rows i
              & forall i, row_sum R i = 1].
Proof.
have s_neq0 i : row_sum ex_rows i != 0 by rewrite ex_rows_sum.
by split=> //; apply: rowStochastic_rows_sum_to_one.
Defined.

Lemma rowStochastic_idempotent_witness :
  (forall i, row_sum ex_rows i != 0) /\
  exists R, rowStochastic ex_rows = Some R /\ rowStochastic R = Some R.
Proof.
have s_neq0 i : row_sum ex_rows i != 0 by rewrite ex_rows_sum.
by split=> //; apply: rowStochastic_idempotent.
Defined.

Lemma rowStochastic_preserves_pattern_witness :
  (forall i, 0 < row_sum ex_rows i) /\
  exists R, [/\ rowStochastic ex_rows = Some R,
                forall i j, (0 < R i j) = (0 < ex_rows i j),
                forall i j, (R i j == 0) = (ex_rows i j == 0),
                adjacent R =2 adjacent ex_rows
              & connected R <-> connected ex_rows].
Proof.
have s_gt0 i : 0 < row_sum ex_rows i by rewrite ex_rows_sum.
by split=> //; apply: rowStochastic_preserves_pattern.
Defined.

(** C8, as stated, fails on [[1, -1], [1, 1]]: no row is all zeros, yet the
    first row sums to zero and the division is undefined there (numpy fills
    the row with inf, then with nan at the second normalization). *)
Lemma rowStochastic_idempotent_counterexample :
  (forall i, exists j, ex_signed i j != 0) /\
  ~ (exists R, rowStochastic ex_signed = Some R /\ rowStochastic R = Some R).
Proof.
split=> [i|[R []]]; first by exists ord0; rewrite mxE andbF.
rewrite (@rowStochastic_undefined _ _ _ ex_signed ord0) //.
by rewrite /row_sum big_ord_recl big_ord1 !mxE.
Qed.

(** ** meanDegree *)

Section MeanDegreeTheory.

Variable F : realFieldType.

Lemma binary_gt0 n (A : 'M[F]_n) i j :
  binary_mx A -> (0 < A i j) = (A i j != 0).
Proof.
by move=> /(_ i j) /orP[] /eqP ->; rewrite ?ltxx ?eqxx ?ltr01 ?oner_neq0.
Qed.

Lemma row_sum_binarize n (A : 'M[F]_n) i :
  binary_mx A -> row_sum (binarize A) i = (degree A i)%:R.
Proof.
move=> binA; rewrite /row_sum /degree -sum1dep_card natr_sum.
rewrite [RHS]big_mkcond /=; apply: eq_bigr => j _; rewrite mxE.
by case: (binA i j) => /orP[] /eqP ->; rewrite ?ltxx ?ltr01.
Qed.

Lemma sum_degree n (A : 'M[F]_n) :
  (\sum_i degree A i)%N = #|[set e : 'I_n * 'I_n | 0 < A e.1 e.2]|.
Proof.
rewrite -sum1dep_card /degree.
under eq_bigr do rewrite -sum1dep_card.
by rewrite (pair_big_dep predT (fun i j => 0 < A i j) (fun _ _ => 1%N)).
Qed.

Lemma card_adjacent_pairs n (A : 'M[F]_n) :
  symmetric_mx A -> (forall i, A i i = 0) ->
  #|[set e : 'I_n * 'I_n | adjacent A e.1 e.2]| = (2 * #|edges A|)%N.
Proof.
move=> symA diagA; rewrite /edges -!sum1dep_card.
have adj_neq (e : 'I_n * 'I_n) : adjacent A e.1 e.2 -> e.1 != e.2 :> nat.
  apply: contraNneq => /val_inj eq_e.
  by rewrite -[X in A _ X]eq_e diagA.
rewrite (bigID (fun e : 'I_n * 'I_n => (e.1 < e.2)%N)) /= mul2n -addnn.
congr addn.
  apply: eq_bigl => e; rewrite andbC ltn_neqAle.
  by case adj_e: (adjacent _ _ _); rewrite ?andbF // (adj_neq _ adj_e).
have sw_inj : injective (fun e : 'I_n * 'I_n => (e.2, e.1)).
  by move=> [a b] [c d] [-> ->].
rewrite (reindex_inj sw_inj) /=; apply: eq_bigl => e.
by rewrite -leqNgt andbC /adjacent symA.
Qed.

(** C9, as amended: on a matrix of zeros and ones with at least one node,
    [meanDegree] is the mean over the nodes of the number of positive entries
    of the node's row; when the matrix is moreover symmetric with a zero
    diagonal, this is twice the number of undirected edges over the number
    of nodes. *)
Theorem meanDegree_binary n (A : 'M[F]_n) :
  (0 < n)%N -> binary_mx A ->
  meanDegree A = Some ((\sum_i degree A i)%:R / n%:R) /\
  (symmetric_mx A -> (forall i, A i i = 0) ->
   meanDegree A = Some ((2 * #|edges A|)%:R / n%:R)).
Proof.
move=> n_gt0 binA.
have mdE : meanDegree A = Some ((\sum_i degree A i)%:R / n%:R).
  rewrite /meanDegree eqn0Ngt n_gt0 /= natr_sum; congr (Some (_ / _)).
  by apply: eq_bigr => i _; apply: row_sum_binarize.
split=> // symA diagA; rewrite mdE sum_degree -card_adjacent_pairs //.
congr (Some (_%:R / _)); apply: eq_card => e.
by rewrite !inE binary_gt0.
Qed.

End MeanDegreeTheory.

Lemma meanDegree_binary_witness :
  [/\ (0 < 2)%N, binary_mx ex_path, symmetric_mx ex_path
    & forall i, ex_path i i = 0] /\
  meanDegree ex_path = Some ((\sum_i degree ex_path i)%:R / 2%:R) /\
  meanDegree ex_path = Some ((2 * #|edges ex_path|)%:R / 2%:R).
Proof.
have bin_path : binary_mx ex_path by move=> i j; rewrite mxE; case: (i == j).
have sym_path : symmetric_mx ex_path by move=> i j; rewrite !mxE eq_sym.
have diag_path i : ex_path i i = 0 by rewrite mxE eqxx.
case: (@meanDegree_binary _ 2 ex_path isT bin_path) => md_deg md_edges.
by do 2![split=> //]; apply: md_edges.
Defined.

Lemma edges_ex_loop : #|edges ex_loop| = 1%N.
Proof.
have -> : edges ex_loop = [set (ord0, ord0)]; last by rewrite cards1.
apply/setP => -[a b]; rewrite !inE /adjacent mxE /=.
by rewrite [a]ord1 [b]ord1 eqxx.
Qed.

(** C9, as stated, fails on the one-node graph [[1]]: its mean degree is 1,
    not twice its number of edges, whether the loop counts as an edge
    or not. *)
Lemma meanDegree_counterexample :
  [/\ binary_mx ex_loop, symmetric_mx ex_loop,
      meanDegree ex_loop = Some 1,
      meanDegree ex_loop <> Some ((2 * #|edges ex_loop|)%:R / 1%:R)
    & meanDegree ex_loop <> Some ((2 * #|proper_edges ex_loop|)%:R / 1%:R)].
Proof.
have md1 : meanDegree ex_loop = Some 1.
  by rewrite /meanDegree /= big_ord1 /row_sum big_ord1 !mxE.
have no_proper : #|proper_edges ex_loop| = 0%N.
  by apply/eqP; rewrite cards_eq0; apply/eqP/setP=> e; rewrite !inE !ord1.
split=> //; first by move=> i j; rewrite mxE.
- by move=> i j; rewrite !ord1.
- by rewrite md1 edges_ex_loop.
- by rewrite md1 no_proper.
Qed.

(** ** expectedEquilibrium *)

Section EquilibriumTheory.

Variable F : realFieldType.
Implicit Types (n : nat).

Lemma expectedEquilibrium_unit n (A : 'M[F]_n) (s : 'cV[F]_n) :
  1%:M - (A - diag_part A) \in unitmx ->
  expectedEquilibrium A s =
  Return (invmx (1%:M - (A - diag_part A)) *m diag_part A *m s).
Proof. by rewrite /expectedEquilibrium /inv => ->. Qed.


(** The fixed-point equation is the linear system [M x = B s]. *)
Lemma fixed_point_system n (A B : 'M[F]_n) (s x : 'cV[F]_n) :
  (x = B *m s + (A - B) *m x) <-> ((1%:M - (A - B)) *m x = B *m s).
Proof.
rewrite [(1%:M - _) *m _]mulmxBl mul1mx.
by split=> [{1}->|<-]; rewrite ?addrK ?subrK.
Qed.

Lemma diag_part_off_diagonal n (A : 'M[F]_n) :
  (forall i j, i != j -> A i j = 0) -> diag_part A = A.
Proof.
move=> offA; apply/matrixP => i j; rewrite !mxE.
by case: eqP => [->|/eqP/offA ->]; rewrite ?mulr1n ?mulr0n.
Qed.

(** Without influence between the nodes the solver returns [B s]. *)
Lemma expectedEquilibrium_diagonal n (A : 'M[F]_n) (s : 'cV[F]_n) :
  (forall i j, i != j -> A i j = 0) ->
  expectedEquilibrium A s = Return (diag_part A *m s).
Proof.
move=> offA; have dA := diag_part_off_diagonal offA.
have M1 : 1%:M - (A - diag_part A) = 1%:M by rewrite dA subrr subr0.
by rewrite expectedEquilibrium_unit M1 ?unitmx1 // invmx1 mul1mx.
Qed.


(** C4, as amended: when every entry of [A] off the diagonal is zero, the
    solver returns [B s], the vector of the [A i i * s i]; this is [s] when
    the diagonal of [A] is all ones. *)
Theorem expectedEquilibrium_fully_stubborn n (A : 'M[F]_n) (s : 'cV[F]_n) :
  (forall i j, i != j -> A i j = 0) ->
  exists x, [/\ expectedEquilibrium A s = Return x,
                forall i, x i 0 = A i i * s i 0
              & (forall i, A i i = 1) -> x = s].
Proof.
move=> offA; exists (diag_part A *m s).
have entry i : (diag_part A *m s) i 0 = A i i * s i 0.
  by rewrite /diag_part mul_diag_mx !mxE.
split=> //; first exact: expectedEquilibrium_diagonal.
move=> diag1; apply/colP => i.
by rewrite entry diag1 mul1r.
Qed.

End EquilibriumTheory.

Lemma ex_follow_unit : 1%:M - (ex_follow - diag_part ex_follow) \in unitmx.
Proof.
rewrite unitmxE unitfE det_trig; last by rewrite big_ord_recl big_ord1 !mxE.
apply/is_trig_mxP => i j lt_ij; rewrite !mxE.
have i0 : (i == 0 :> nat).
  by move: lt_ij; case: (i : nat) => // [] i'; case: j => -[|[|j]].
have neq_ij : (i == j) = false by rewrite -val_eqE (ltn_eqF lt_ij).
have j0 : (j == 0 :> nat) = false by rewrite gtn_eqF // -(eqP i0).
by rewrite i0 neq_ij j0.
Qed.


(** The single node with full stubbornness: [A = [[1]]], [s = [5]] gives
    [x = [5]]. *)
Lemma expectedEquilibrium_fully_stubborn_witness :
  (forall i j, i != j -> ex_loop i j = 0) /\
  expectedEquilibrium ex_loop ex_belief = Return ex_belief.
Proof.
have offA i j : i != j -> ex_loop i j = 0 by rewrite [i]ord1 [j]ord1.
split=> //.
case: (expectedEquilibrium_fully_stubborn ex_belief offA) => x [-> _ xs].
by rewrite xs // => i; rewrite mxE.
Defined.

(** C4, as stated, fails on [A = [[1/2]]], [s = [5]]: nothing lies off the
    diagonal, and the solver returns [[5/2]]. *)
Lemma expectedEquilibrium_fully_stubborn_counterexample :
  [/\ forall i j, i != j -> ex_half i j = 0,
      exists2 x, expectedEquilibrium ex_half ex_belief = Return x
               & x 0 0 = 5%:R / 2%:R
    & expectedEquilibrium ex_half ex_belief <> Return ex_belief].
Proof.
have offA i j : i != j -> ex_half i j = 0 by rewrite [i]ord1 [j]ord1.
have entry : (diag_part ex_half *m ex_belief) 0 0 = 5%:R / 2%:R.
  by rewrite /diag_part mul_diag_mx !mxE.
split=> //; rewrite expectedEquilibrium_diagonal //.
  by exists (diag_part ex_half *m ex_belief).
by case=> /(congr1 (fun x : 'cV[rat]_1 => x 0 0)); rewrite entry mxE.
Qed.

(** ** randomSpanningTree *)

Section TreeTheory.

Variable F : realFieldType.
Variable draws : nat -> F.
Implicit Types (n c : nat) (rw : bool).

Lemma set_entryE n (A : 'M[F]_n) i j w a b :
  set_entry A i j w a b = if (a == i) && (b == j) then w else A a b.
Proof. by rewrite mxE. Qed.

Lemma tree_bodyE n rw (nodes : 'S_n) (A : 'M[F]_n) c i :
  tree_body draws rw nodes (A, c) i =
  (set_entry (set_entry A (nodes (ord_pred i)) (nodes i)
                        (tree_weight draws rw c))
             (nodes i) (nodes (ord_pred i)) (tree_weight draws rw c),
   if rw then c.+1 else c).
Proof. by rewrite /tree_body /tree_weight /random; case: rw. Qed.

Lemma set_pair_adjacent n (A : 'M[F]_n) p q w a b :
  w != 0 ->
  adjacent (set_entry (set_entry A p q w) q p w) a b =
  adjacent A a b || ((a == p) && (b == q)) || ((a == q) && (b == p)).
Proof.
move=> w_neq0; rewrite /adjacent !set_entryE.
case: ((a == q) && (b == p)); first by rewrite w_neq0 orbT.
by case: ((a == p) && (b == q)); rewrite ?w_neq0 ?orbT ?orbF.
Qed.

Lemma set_pair_symmetric n (A : 'M[F]_n) p q w :
  symmetric_mx A -> symmetric_mx (set_entry (set_entry A p q w) q p w).
Proof.
move=> symA a b; rewrite !set_entryE.
rewrite [(b == q) && _]andbC [(b == p) && _]andbC.
case: ((a == q) && (b == p)); case: ((a == p) && (b == q)) => //.
Qed.

Lemma tree_weight_neq0 rw c :
  (rw -> forall k, draws k != 0) -> tree_weight draws rw c != 0.
Proof. by rewrite /tree_weight; case: rw => [->|_] //; rewrite oner_neq0. Qed.

Lemma tree_fold_adjacent n rw (nodes : 'S_n) l (A : 'M[F]_n) c a b :
  (rw -> forall k, draws k != 0) ->
  adjacent (foldl (tree_body draws rw nodes) (A, c) l).1 a b =
  adjacent A a b || has (fun i => tree_link nodes i a b) l.
Proof.
move=> w_neq0; elim: l A c => [|i l IH] A c /=; first by rewrite orbF.
rewrite tree_bodyE IH set_pair_adjacent ?tree_weight_neq0 //.
by rewrite /tree_link !orbA.
Qed.

Lemma tree_fold_symmetric n rw (nodes : 'S_n) l (A : 'M[F]_n) c :
  symmetric_mx A ->
  symmetric_mx (foldl (tree_body draws rw nodes) (A, c) l).1.
Proof.
elim: l A c => [|i l IH] A c //= symA.
by rewrite tree_bodyE; apply/IH/set_pair_symmetric.
Qed.

Section Tree.

Variables (n : nat) (rw : bool) (nodes : 'S_n) (c : nat).
Hypothesis draws_neq0 : rw -> forall k, draws k != 0.

Let T : 'M[F]_n := (randomSpanningTree draws rw nodes c).1.

Lemma tree_adjacent a b :
  adjacent T a b = [exists i : 'I_n, (0 < i)%N && tree_link nodes i a b].
Proof.
rewrite /T /randomSpanningTree tree_fold_adjacent // /adjacent mxE eqxx /=.
apply/hasP/existsP => [[i]|[i /andP[i_gt0 link_i]]].
  by rewrite mem_filter => /andP[i_gt0 _] link_i; exists i; rewrite i_gt0.
by exists i => //; rewrite mem_filter i_gt0 mem_enum.
Qed.

Lemma tree_symmetric : symmetric_mx T.
Proof. by apply: tree_fold_symmetric => i j; rewrite !mxE. Qed.

Lemma tree_adjacent_sym : symmetric (adjacent T).
Proof. by move=> a b; rewrite /adjacent tree_symmetric. Qed.

Lemma tree_consecutive (i : 'I_n) :
  (0 < i)%N -> adjacent T (nodes (ord_pred i)) (nodes i).
Proof.
move=> i_gt0; rewrite tree_adjacent; apply/existsP; exists i.
by rewrite i_gt0 /tree_link !eqxx.
Qed.

Lemma tree_path k (i j : 'I_n) :
  (i + k)%N = j -> connect (adjacent T) (nodes i) (nodes j).
Proof.
elim: k j => [|k IH] j; first by rewrite addn0 => /val_inj ->.
rewrite addnS => eq_j.
have j_gt0 : (0 < j)%N by rewrite -eq_j.
apply: connect_trans (connect1 (tree_consecutive j_gt0)).
by apply: IH; rewrite /= -eq_j.
Qed.

Lemma tree_connected : connected T.
Proof.
move=> a b; rewrite -(permKV nodes a) -(permKV nodes b).
case: (leqP ((nodes^-1)%g a) ((nodes^-1)%g b)) => [le_ab|/ltnW le_ba].
  by apply: (@tree_path ((nodes^-1)%g b - (nodes^-1)%g a)); rewrite subnKC.
rewrite (sym_connect_sym tree_adjacent_sym).
by apply: (@tree_path ((nodes^-1)%g a - (nodes^-1)%g b)); rewrite subnKC.
Qed.

Lemma ord_pred_neq (i : 'I_n) : (0 < i)%N -> ord_pred i != i.
Proof. by move=> i_gt0; rewrite -val_eqE /= neq_ltn ltn_predL i_gt0. Qed.

Lemma tree_diagonal a : T a a = 0.
Proof.
apply/eqP; rewrite -[_ == 0]negbK -/(adjacent T a a) tree_adjacent.
apply/existsP => -[i /andP[i_gt0]]; rewrite /tree_link.
have neq_i := ord_pred_neq i_gt0.
case/orP=> /andP[/eqP -> /eqP/perm_inj /eqP]; rewrite ?(negPf neq_i) //.
by rewrite eq_sym (negPf neq_i).
Qed.

Lemma tree_edges :
  edges T = [set tree_edge nodes i | i in [set i : 'I_n | (0 < i)%N]].
Proof.
apply/setP => -[a b]; rewrite inE /= tree_adjacent.
apply/andP/imsetP => [[le_ab /existsP[i /andP[i_gt0 link_i]]]|[i]].
  exists i; rewrite ?inE // /tree_edge.
  case/orP: link_i le_ab => /andP[/eqP -> /eqP ->] le_ab; rewrite ?le_ab //.
  case: ifP => // le_ba.
  by rewrite (val_inj (anti_leq (introT andP (conj le_ab le_ba)))).
rewrite inE /tree_edge => i_gt0.
case: ifP => [le_i|/negbT]; last rewrite -ltnNge => /ltnW le_i; case=> -> ->.
  by split=> //; apply/existsP; exists i; rewrite i_gt0 /tree_link !eqxx.
by split=> //; apply/existsP; exists i; rewrite i_gt0 /tree_link !eqxx orbT.
Qed.

Lemma tree_edge_inj :
  {in [set i : 'I_n | (0 < i)%N] &, injective (tree_edge nodes)}.
Proof.
have no_swap (i j : 'I_n) :
    (0 < i)%N -> ord_pred i = j -> i = ord_pred j -> False.
  move=> i_gt0 /(congr1 val) /= eq_j /(congr1 val) /= eq_i.
  have := leq_pred j; rewrite -eq_i -eq_j.
  by rewrite leqNgt ltn_predL i_gt0.
move=> i j; rewrite !inE /tree_edge => i_gt0 j_gt0.
case: ifP => _; case: ifP => _ [] /perm_inj e1 /perm_inj e2 //.
- by case: (no_swap i j).
- by case: (no_swap j i).
Qed.

Lemma card_range_from1 : #|[set i : 'I_n | (0 < i)%N]| = n.-1.
Proof.
case: n => [|m]; first by apply: eq_card0 => -[].
have -> : [set i : 'I_m.+1 | (0 < i)%N] = [set~ ord0].
  by apply/setP => i; rewrite !inE lt0n.
by rewrite cardsC1 card_ord.
Qed.

Lemma tree_card_edges : #|edges T| = n.-1.
Proof.
by rewrite tree_edges (card_in_imset tree_edge_inj) card_range_from1.
Qed.

End Tree.

(** X24: whatever the permutation, the generator state and the mode, the
    drawn weights being nonzero, the matrix that [randomSpanningTree] returns
    is symmetric, its graph is connected and it has exactly [N - 1] edges
    (none of them a loop). *)
Theorem randomSpanningTree_spanning_tree n rw (nodes : 'S_n) c :
  (rw -> forall k, draws k != 0) ->
  [/\ connected (randomSpanningTree draws rw nodes c).1,
      #|edges (randomSpanningTree draws rw nodes c).1| = n.-1,
      symmetric_mx (randomSpanningTree draws rw nodes c).1
    & forall i, (randomSpanningTree draws rw nodes c).1 i i = 0].
Proof.
move=> draws_neq0; split.
- exact: tree_connected.
- exact: tree_card_edges.
- exact: tree_symmetric.
- exact: tree_diagonal.
Qed.

End TreeTheory.

Lemma randomSpanningTree_spanning_tree_witness :
  (true -> forall k, ex_draws k != 0) /\
  [/\ connected (randomSpanningTree ex_draws true (1%g : 'S_3) 0).1,
      #|edges (randomSpanningTree ex_draws true (1%g : 'S_3) 0).1| = 2%N,
      symmetric_mx (randomSpanningTree ex_draws true (1%g : 'S_3) 0).1
    & forall i, (randomSpanningTree ex_draws true (1%g : 'S_3) 0).1 i i = 0].
Proof.
have draws_neq0 : true -> forall k, ex_draws k != 0 by [].
by split=> //; apply: randomSpanningTree_spanning_tree.
Defined.

(** ** gnp *)

Section GnpTheory.

Variable F : realFieldType.
Variable draws : nat -> F.

Lemma tree_fold_counter n (nodes : 'S_n) l (A : 'M[F]_n) c :
  (foldl (tree_body draws false nodes) (A, c) l).2 = c.
Proof. by elim: l A c => [|i l IH] A c //=; rewrite tree_bodyE IH. Qed.

Lemma rowStochastic_some m n (A G : 'M[F]_(m, n)) i j :
  rowStochastic A = Some G ->
  row_sum A i != 0 /\ G i j = A i j / row_sum A i.
Proof.
rewrite /rowStochastic; case: ifP => // /forallP s_neq0 [<-].
by rewrite mxE.
Qed.

Lemma index_allpairs n (s t : seq 'I_n) (i j : 'I_n) :
  i \in s -> j \in t ->
  index (i, j) [seq (x, y) | x <- s, y <- t] =
  (index i s * size t + index j t)%N.
Proof.
elim: s => [|x s IH] //; rewrite in_cons allpairs_cons index_cat /=.
move=> i_in j_in; have [eq_xi|neq_xi] := eqVneq x i.
  by rewrite eq_xi map_f //= mul0n add0n index_map // => y z [].
rewrite eq_sym (negPf neq_xi) /= in i_in.
rewrite size_map mulSn -addnA -IH //.
case: mapP => // -[y _ [eq_ix]].
by rewrite eq_ix eqxx in neq_xi.
Qed.

Section Loops.

Variables (n : nat) (p : F) (rw : bool).
Implicit Types (st : 'M[F]_n * nat) (l : seq ('I_n * 'I_n)) (a : 'I_n).

(** The body of the loops, on the pair it is at. *)
Let step st (ij : 'I_n * 'I_n) := gnp_body draws p rw ij.1 st ij.2.

Lemma gnp_bodyE (i j : 'I_n) (A : 'M[F]_n) c :
  gnp_body draws p rw i (A, c) j =
  if draws c < p
  then (set_entry (set_entry A i j (tree_weight draws rw c.+1))
                  j i (tree_weight draws rw c.+1),
        if rw then c.+2 else c.+1)
  else (A, c.+1).
Proof.
by rewrite /gnp_body /random /tree_weight; case: ifP => // _; case: rw.
Qed.

Lemma foldl_allpairs (s t : seq 'I_n) st :
  foldl (fun st1 i => foldl (gnp_body draws p rw i) st1 t) st s =
  foldl step st [seq (i, j) | i <- s, j <- t].
Proof.
elim: s st => [|i s IH] st //; rewrite allpairs_cons foldl_cat -IH /=.
by congr foldl => {IH}; elim: t st => [|j t IHt] st //=; rewrite IHt.
Qed.

(** The nested loops go through [gnp_pairs] in order. *)
Lemma gnp_loops_pairs st :
  gnp_loops draws p rw st = foldl step st (gnp_pairs n).
Proof. exact: foldl_allpairs. Qed.

Lemma gnp_step_other st e a :
  e != (a, a) -> (step st e).1 a a = st.1 a a.
Proof.
case: st e => A c [i j]; rewrite /step /= gnp_bodyE xpair_eqE => neq_e.
case: ifP => //= _; rewrite !set_entryE.
rewrite [(a == j) && _]andbC [a == i]eq_sym [a == j]eq_sym.
by rewrite (negPf neq_e).
Qed.

Lemma gnp_step_self st a :
  (step st (a, a)).1 a a =
  if draws st.2 < p then tree_weight draws rw st.2.+1 else st.1 a a.
Proof.
case: st => A c; rewrite /step /= gnp_bodyE.
by case: ifP => //= _; rewrite !set_entryE eqxx.
Qed.

Lemma gnp_fold_other st l a :
  (a, a) \notin l -> (foldl step st l).1 a a = st.1 a a.
Proof.
elim: l st => [|e l IH] st //=; rewrite in_cons negb_or eq_sym.
by case/andP=> neq_e /IH ->; apply: gnp_step_other.
Qed.

Lemma gnp_fold_diagonal st l a :
  uniq l -> (a, a) \in l ->
  (foldl step st l).1 a a =
  if draws (foldl step st (take (index (a, a) l) l)).2 < p
  then tree_weight draws rw (foldl step st (take (index (a, a) l) l)).2.+1
  else st.1 a a.
Proof.
elim: l st => [|e l IH] st //= /andP[e_notin uniq_l].
rewrite in_cons eq_sym; have [eq_e|neq_e] /= := eqVneq e (a, a).
  by move=> _; rewrite gnp_fold_other -?eq_e // eq_e gnp_step_self.
by move=> a_in; rewrite IH // gnp_step_other.
Qed.

Lemma gnp_pairs_uniq : uniq (gnp_pairs n).
Proof.
by apply: allpairs_uniq => [||[i j] [i' j'] _ _ //]; apply: enum_uniq.
Qed.

Lemma mem_gnp_pairs e : e \in gnp_pairs n.
Proof. by case: e => i j; apply: allpairs_f; rewrite mem_enum. Qed.

Lemma size_gnp_pairs : size (gnp_pairs n) = (n * n)%N.
Proof. by rewrite /gnp_pairs size_allpairs size_enum_ord. Qed.

Lemma index_gnp_pairs (i j : 'I_n) : index (i, j) (gnp_pairs n) = (i * n + j)%N.
Proof.
by rewrite index_allpairs ?mem_enum // !index_enum_ord size_enum_ord.
Qed.

(** The diagonal entry after the loops: what the turn of the pair [(a, a)]
    has written. *)
Lemma gnp_loops_diagonal st a :
  (gnp_loops draws p rw st).1 a a =
  if draws (gnp_reach draws p rw st (a, a)).2 < p
  then tree_weight draws rw (gnp_reach draws p rw st (a, a)).2.+1
  else st.1 a a.
Proof.
by rewrite gnp_loops_pairs gnp_fold_diagonal ?gnp_pairs_uniq ?mem_gnp_pairs.
Qed.

(** Without weights every turn draws once. *)
Lemma gnp_fold_counter st l :
  rw = false -> (foldl step st l).2 = (st.2 + size l)%N.
Proof.
move=> no_weights; elim: l st => [|[i j] l IH] [A c] /=; first by rewrite addn0.
by rewrite IH /step gnp_bodyE no_weights /=; case: ifP => _; rewrite addSnnS.
Qed.

End Loops.

Lemma gnp_edges_diagonal n (p : F) rw (nodes : 'S_n) c i :
  (gnp_edges draws p rw nodes c).1 i i =
  if draws (gnp_self_state draws p rw nodes c i) < p
  then tree_weight draws rw (gnp_self_state draws p rw nodes c i).+1
  else 0.
Proof.
rewrite /gnp_edges gnp_loops_diagonal /gnp_self_state.
have -> // : (randomSpanningTree draws false nodes c).1 i i = 0.
exact: tree_diagonal.
Qed.

Lemma gnp_self_state_binary n (p : F) (nodes : 'S_n) c (i : 'I_n) :
  gnp_self_state draws p false nodes c i = (c + i * n + i)%N.
Proof.
rewrite /gnp_self_state /gnp_reach gnp_fold_counter //.
rewrite /randomSpanningTree tree_fold_counter size_take.
by rewrite index_mem mem_gnp_pairs index_gnp_pairs addnA.
Qed.

(** Without weights: the matrix that [gnp] returns, on its diagonal, and
    the generator state it leaves. *)
Lemma gnp_binary_diagonal n (p : F) (nodes : 'S_n) c :
  exists G, gnp draws p false nodes c = (Some G, (c + n * n)%N) /\
            forall i, G i i = if draws (c + i * n + i) < p then 1 else 0.
Proof.
exists (gnp_edges draws p false nodes c).1; split; last first.
  by move=> i; rewrite gnp_edges_diagonal gnp_self_state_binary.
rewrite /gnp [gnp_edges _ _ _ _ _]surjective_pairing; congr (_, _).
rewrite /gnp_edges gnp_loops_pairs gnp_fold_counter // size_gnp_pairs.
by rewrite /randomSpanningTree tree_fold_counter.
Qed.

(** C3, as amended: the pair [(i, i)] is not skipped.  In both modes, in
    the matrix that the loops leave, the entry [(i, i)] is the weight of the
    edge (1, or with weights the value drawn next) when the draw made as the
    loops reach the pair is below [p], and 0 otherwise.  Without weights that
    draw is the [(i * N + i)]-th of the loops, and the returned entry is 1
    when it is below [p] and 0 otherwise.  With weights the returned matrix
    is the normalization of the one the loops leave; when no row of that one
    sums to zero, the returned entry [(i, i)] is zero exactly when the entry
    before the normalization is. *)
Theorem gnp_diagonal n (p : F) (nodes : 'S_n) c :
  [/\ forall rw i,
        (gnp_edges draws p rw nodes c).1 i i =
        if draws (gnp_self_state draws p rw nodes c i) < p
        then tree_weight draws rw (gnp_self_state draws p rw nodes c i).+1
        else 0,
      forall i, gnp_self_state draws p false nodes c i = (c + i * n + i)%N,
      exists G, gnp draws p false nodes c = (Some G, (c + n * n)%N) /\
                forall i,
                  G i i = (if draws (c + i * n + i) < p then 1 else 0) /\
                  (G i i == 0) = ~~ (draws (c + i * n + i) < p),
      (gnp draws p true nodes c).1 =
      rowStochastic (gnp_edges draws p true nodes c).1
    & (forall i, row_sum (gnp_edges draws p true nodes c).1 i != 0) ->
      exists2 G, (gnp draws p true nodes c).1 = Some G
        & forall i,
            (G i i == 0) = ((gnp_edges draws p true nodes c).1 i i == 0)].
Proof.
split.
- by move=> rw i; apply: gnp_edges_diagonal.
- exact: gnp_self_state_binary.
- have [G [gnpE diagG]] := gnp_binary_diagonal p nodes c.
  exists G; split=> // i; rewrite diagG; split=> //.
  by case: ifP => _; rewrite ?oner_eq0 ?eqxx.
- by rewrite /gnp; case: (gnp_edges _ _ _ _ _).
- rewrite /gnp; case: (gnp_edges _ _ _ _ _) => A c1 /= s_neq0.
  exists (\matrix_(i, j) (A i j / row_sum A i)).
    exact: rowStochastic_defined.
  by move=> i; rewrite mxE mulf_eq0 invr_eq0 (negPf (s_neq0 i)) orbF.
Qed.

End GnpTheory.

(** C3, as stated, fails on one node with [p = 1] and draws of 1/2: the
    pair [(0, 0)] is sampled and the returned matrix is [[1]]. *)
Lemma gnp_zero_diagonal_counterexample :
  exists2 G, gnp ex_draws 1 false (1%g : 'S_1) 0 = (Some G, 1%N)
           & G ord0 ord0 = 1.
Proof.
have [G [gnpE diagG]] := gnp_binary_diagonal ex_draws 1 (1%g : 'S_1) 0.
by exists G; rewrite ?gnpE ?diagG.
Qed.

(** * Further properties *)

(** ** rchoice: which index is returned *)

Section RchoiceIndex.

Variable F : realFieldType.
Variable draws : nat -> F.
Implicit Types (weights : seq F) (r s : F) (idx : seq nat).

(** The loop returns the first index at which the running sum reaches the
    draw. *)
Lemma rchoice_loop_return weights r s idx i :
  rchoice_loop weights r s idx = Return i <->
  exists2 k, (k < size idx)%N
    & [/\ nth 0%N idx k = i,
          r <= foldl (fun s0 j => s0 + nth 0 weights j) s (take k.+1 idx)
        & forall k', (k' < k)%N ->
          foldl (fun s0 j => s0 + nth 0 weights j) s (take k'.+1 idx) < r].
Proof.
elim: idx s => [|j idx IH] s /=; first by split=> // -[].
case: ifP => [le_r|/negbT lt_r].
  split=> [[<-]|[[|k] lt_k [/= eq_i le_k first_k]]].
  - by exists 0%N => //; split=> //; rewrite take0.
  - by rewrite eq_i.
  - by have := first_k 0%N isT; rewrite take0 /= ltNge le_r.
rewrite -ltNge in lt_r.
split=> [/IH [k lt_k [eq_i le_k first_k]]|[[|k] lt_k [/= eq_i le_k first_k]]].
- exists k.+1 => //; split=> // -[|k'] //; first by rewrite take0.
  by rewrite ltnS => /first_k.
- by move: le_k; rewrite take0 /= leNgt lt_r.
- apply/IH; exists k => //; split=> // k' lt_k'.
  exact: (first_k k'.+1).
Qed.

Lemma sorted_nonzero weights : sorted ltn (nonzero weights).
Proof. by rewrite /nonzero sorted_filter ?iota_ltn_sorted //; apply: ltn_trans. Qed.

Lemma nonzero_nil weights :
  nonzero weights = [::] -> all (eq_op^~ 0) weights.
Proof.
move=> nz_nil; apply/(all_nthP 0) => i lt_i; apply/negPn/negP => w_neq0.
have : i \in nonzero weights by rewrite mem_nonzero lt_i.
by rewrite nz_nil.
Qed.

Lemma running_sumE weights idx :
  running_sum weights idx = \sum_(j <- idx) nth 0 weights j.
Proof.
elim: idx => [|j idx IH]; first by rewrite big_nil.
by rewrite -cat1s running_sum_cat IH big_cons /running_sum /= add0r.
Qed.

Lemma prefix_sumE weights k n :
  (k <= n)%N ->
  running_sum weights (take k (iota 0 n)) = \sum_(0 <= j < k) nth 0 weights j.
Proof.
by move=> le_k; rewrite running_sumE take_iota (minn_idPl le_k) /index_iota subn0.
Qed.

Lemma prefix_sum_le weights k1 k2 :
  (forall j, 0 <= nth 0 weights j) -> (k1 <= k2)%N ->
  \sum_(0 <= j < k1) nth 0 weights j <= \sum_(0 <= j < k2) nth 0 weights j.
Proof.
move=> w_ge0 le_k; rewrite (big_cat_nat (leq0n k1) le_k) /= lerDl.
by apply: sumr_ge0 => j _.
Qed.

(** Below the draw, the indices of weight zero make no difference. *)
Lemma rchoice_loop_filter weights r s l :
  s < r ->
  rchoice_loop weights r s [seq j <- l | nth 0 weights j != 0] =
  rchoice_loop weights r s l.
Proof.
elim: l s => [|j l IH] s lt_s //=.
have [w0|w_neq0] /= := eqVneq (nth 0 weights j) 0.
  by rewrite w0 addr0 leNgt lt_s /= IH.
by case: leP => // lt_s'; apply: IH.
Qed.

(** X1: [rchoice] returns the first nonzero-weight index at which the
    running sum reaches the draw: it returns [i] exactly when [i] is the
    [k]-th nonzero index, the running sum through it reaches the draw, and
    the running sums through the earlier nonzero indices stay below it. *)
Theorem rchoice_returns_first_hit weights c i :
  (rchoice draws weights c).1 = Return i <->
  exists2 k, (k < size (nonzero weights))%N
    & [/\ nth 0%N (nonzero weights) k = i,
          draws c <= running_sum weights (take k.+1 (nonzero weights))
        & forall k', (k' < k)%N ->
          running_sum weights (take k'.+1 (nonzero weights)) < draws c].
Proof. exact: rchoice_loop_return. Qed.

(** X2: when some weight is nonzero and the draw is at most the total of the
    weights, [rchoice] does not fail: it returns an index of the vector. *)
Theorem rchoice_succeeds weights c :
  has (fun w => w != 0) weights -> draws c <= \sum_(w <- weights) w ->
  exists2 i, (rchoice draws weights c).1 = Return i & (i < size weights)%N.
Proof.
move=> has_nz le_total; rewrite /rchoice /=.
case: (rchoice_with_cases weights (draws c)) => // /rchoice_with_raise below.
have nz_gt0 : (0 < size (nonzero weights))%N.
  rewrite lt0n size_eq0; apply: contraL has_nz => /eqP/nonzero_nil all0.
  by rewrite -all_predC; apply: sub_all all0 => w /= ->.
have := below (size (nonzero weights)).-1; rewrite prednK // leqnn take_size.
by rewrite running_sum_total ltNge le_total => /(_ isT).
Qed.

(** X3: a larger draw never gives a smaller index. *)
Theorem rchoice_monotone weights c1 c2 i1 i2 :
  draws c1 <= draws c2 ->
  (rchoice draws weights c1).1 = Return i1 ->
  (rchoice draws weights c2).1 = Return i2 ->
  (i1 <= i2)%N.
Proof.
move=> le_r /rchoice_loop_return[k1 lt_k1 [<- _ first1]].
move=> /rchoice_loop_return[k2 lt_k2 [<- reach2 _]].
have le_k : (k1 <= k2)%N.
  rewrite leqNgt; apply/negP => /first1 below1.
  by have := le_lt_trans (le_trans le_r reach2) below1; rewrite ltxx.
move: le_k; rewrite leq_eqVlt => /orP[/eqP -> //|lt_k].
apply: ltnW; apply: (sorted_ltn_nth ltn_trans 0%N (sorted_nonzero weights)) => //.
Qed.

(** X4: on nonnegative weights and for a positive draw, [rchoice] returns
    [i] exactly when the draw lies in the interval that the weight of [i]
    occupies in the cumulative sums: above the sum of the weights before
    [i], at most the sum through [i]. *)
Theorem rchoice_interval weights c i :
  (forall j, 0 <= nth 0 weights j) -> 0 < draws c ->
  ((rchoice draws weights c).1 = Return i <->
   [/\ (i < size weights)%N,
       \sum_(0 <= j < i) nth 0 weights j < draws c
     & draws c <= \sum_(0 <= j < i.+1) nth 0 weights j]).
Proof.
move=> w_ge0 r_gt0; rewrite /rchoice /= /rchoice_with /nonzero.
rewrite rchoice_loop_filter //; split.
  case/rchoice_loop_return=> k; rewrite size_iota => lt_k.
  rewrite nth_iota // add0n => -[<-].
  rewrite -/(running_sum weights _) prefix_sumE // => reach first_k.
  split=> //; case: k lt_k reach first_k => [|k] lt_k reach first_k.
    by rewrite big_geq.
  have := first_k k (leqnn _).
  by rewrite -/(running_sum weights _) prefix_sumE // ltnW.
case=> lt_i below reach; apply/rchoice_loop_return; exists i.
  by rewrite size_iota.
rewrite nth_iota // add0n -/(running_sum weights _) prefix_sumE //.
split=> // k' lt_k'; rewrite -/(running_sum weights _) prefix_sumE.
  exact: leq_trans lt_k' (ltnW lt_i).
exact: le_lt_trans (prefix_sum_le w_ge0 lt_k') below.
Qed.

End RchoiceIndex.

(** A generator whose draws are 0, 1/2, 2/3, 3/4, ... *)
Lemma rchoice_monotone_witness :
  [/\ ex_ramp 0 <= ex_ramp 1,
      (rchoice ex_ramp ex_weights 0).1 = Return 1%N,
      (rchoice ex_ramp ex_weights 1).1 = Return 3%N
    & (1 <= 3)%N].
Proof.
have le_r : ex_ramp 0 <= ex_ramp 1 by [].
have ret1 : (rchoice ex_ramp ex_weights 0).1 = Return 1%N by [].
have ret3 : (rchoice ex_ramp ex_weights 1).1 = Return 3%N by [].
exact: And4 le_r ret1 ret3 (rchoice_monotone le_r ret1 ret3).
Defined.

Lemma rchoice_interval_witness :
  [/\ forall j, 0 <= nth 0 ex_weights j, 0 < ex_draws 0
    & (rchoice ex_draws ex_weights 0).1 = Return 3%N <->
      [/\ (3 < size ex_weights)%N,
          \sum_(0 <= j < 3) nth 0 ex_weights j < ex_draws 0
        & ex_draws 0 <= \sum_(0 <= j < 4) nth 0 ex_weights j]].
Proof.
have w_ge0 j : 0 <= nth 0 ex_weights j.
  by case: j => [|[|[|[|j]]]] //=; rewrite nth_nil.
have r_gt0 : 0 < ex_draws 0 by [].
by split=> //; apply: rchoice_interval.
Defined.

Lemma rchoice_succeeds_witness :
  [/\ has (fun w : rat => w != 0) ex_weights,
      ex_draws 0 <= \sum_(w <- ex_weights) w
    & exists2 i, (rchoice ex_draws ex_weights 0).1 = Return i
               & (i < size ex_weights)%N].
Proof.
have has_nz : has (fun w : rat => w != 0) ex_weights by [].
have le_total : ex_draws 0 <= \sum_(w <- ex_weights) w.
  by rewrite /ex_weights !big_cons big_nil.
by split=> //; apply: rchoice_succeeds.
Defined.

(** ** rowStochastic: scale and range *)

Section RowStochasticRange.

Variable F : realFieldType.

Lemma row_sum_scale m n (k : F) (A : 'M[F]_(m, n)) i :
  row_sum (k *: A) i = k * row_sum A i.
Proof.
by rewrite /row_sum mulr_sumr; apply: eq_bigr => j _; rewrite mxE.
Qed.

(** X5: multiplying the matrix by a nonzero number does not change its
    normalization. *)
Theorem rowStochastic_scale m n (k : F) (A : 'M[F]_(m, n)) :
  k != 0 -> rowStochastic (k *: A) = rowStochastic A.
Proof.
move=> k_neq0; rewrite /rowStochastic.
have -> : [forall i, row_sum (k *: A) i != 0] = [forall i, row_sum A i != 0].
  by apply: eq_forallb => i; rewrite row_sum_scale mulf_eq0 (negPf k_neq0).
case: ifP => // _; congr Some; apply/matrixP => i j.
by rewrite !mxE row_sum_scale -mulf_div divff // mul1r.
Qed.

Lemma entry_le_row_sum m n (A : 'M[F]_(m, n)) i j :
  (forall i0 j0, 0 <= A i0 j0) -> A i j <= row_sum A i.
Proof.
move=> A_ge0; rewrite /row_sum (bigD1 j) //= lerDl.
by apply: sumr_ge0 => j0 _.
Qed.

Lemma row_sum_ge0 m n (A : 'M[F]_(m, n)) i :
  (forall i0 j0, 0 <= A i0 j0) -> 0 <= row_sum A i.
Proof. by move=> A_ge0; apply: sumr_ge0 => j _. Qed.

(** X6: on nonnegative entries, with no zero row sum, every entry of the
    normalized matrix lies between 0 and 1. *)
Theorem rowStochastic_entries_in_unit_interval m n (A : 'M[F]_(m, n)) :
  (forall i j, 0 <= A i j) -> (forall i, row_sum A i != 0) ->
  exists2 R, rowStochastic A = Some R & forall i j, 0 <= R i j <= 1.
Proof.
move=> A_ge0 s_neq0; exists (\matrix_(i, j) (A i j / row_sum A i)).
  exact: rowStochastic_defined.
move=> i j; rewrite mxE.
have s_gt0 : 0 < row_sum A i by rewrite lt_def s_neq0 row_sum_ge0.
by rewrite divr_ge0 ?row_sum_ge0 // ler_pdivrMr // mul1r entry_le_row_sum.
Qed.

End RowStochasticRange.

Lemma rowStochastic_scale_witness :
  (3%:R : rat) != 0 /\ rowStochastic (3%:R *: ex_rows) = rowStochastic ex_rows.
Proof.
have k_neq0 : (3%:R : rat) != 0 by [].
by split=> //; apply: rowStochastic_scale.
Defined.

Lemma rowStochastic_entries_in_unit_interval_witness :
  [/\ forall i j, 0 <= ex_rows i j, forall i, row_sum ex_rows i != 0
    & exists2 R, rowStochastic ex_rows = Some R
               & forall i j, 0 <= R i j <= 1].
Proof.
have A_ge0 i j : 0 <= ex_rows i j by rewrite mxE; case: ifP.
have s_neq0 i : row_sum ex_rows i != 0 by rewrite ex_rows_sum.
by split=> //; apply: rowStochastic_entries_in_unit_interval.
Defined.

(** ** meanDegree: weights and signs *)

Section MeanDegreeWeights.

Variable F : realFieldType.

Lemma row_sum_binarize_signed n (A : 'M[F]_n) i :
  row_sum (binarize A) i = (degree A i)%:R + \sum_(j | A i j < 0) A i j.
Proof.
rewrite /row_sum /degree -sum1dep_card natr_sum.
rewrite (bigID (fun j => 0 < A i j)) /=; congr (_ + _).
  by apply: eq_big => [j|j pos_j] //; rewrite mxE pos_j.
rewrite [RHS]big_mkcond [LHS]big_mkcond /=; apply: eq_bigr => j _.
by rewrite mxE; case: ltgtP.
Qed.

Lemma meanDegree_signed_sum n (A : 'M[F]_n) :
  (0 < n)%N ->
  meanDegree A =
  Some ((\sum_i ((degree A i)%:R + \sum_(j | A i j < 0) A i j)) / n%:R).
Proof.
move=> n_gt0; rewrite /meanDegree eqn0Ngt n_gt0 /=; congr (Some (_ / _)).
by apply: eq_bigr => i _; apply: row_sum_binarize_signed.
Qed.

Lemma meanDegree_nonneg n (A : 'M[F]_n) :
  (0 < n)%N -> (forall i j, 0 <= A i j) ->
  meanDegree A = Some ((\sum_i degree A i)%:R / n%:R).
Proof.
move=> n_gt0 A_ge0; rewrite meanDegree_signed_sum // natr_sum.
congr (Some (_ / _)); apply: eq_bigr => i _.
by rewrite big_pred0 ?addr0 // => j; rewrite ltNge A_ge0.
Qed.

(** X7: whatever the entries, [meanDegree] is the mean over the rows of the
    number of positive entries plus the sum of the negative entries: only
    the positive entries are turned into 1, the negative ones are summed as
    they are. *)
Theorem meanDegree_sums_negative_entries n (A : 'M[F]_n) :
  (0 < n)%N ->
  meanDegree A =
  Some ((\sum_i ((degree A i)%:R + \sum_(j | A i j < 0) A i j)) / n%:R).
Proof. exact: meanDegree_signed_sum. Qed.

Lemma degree_le n (A : 'M[F]_n) i : (degree A i <= n)%N.
Proof. by rewrite /degree -[X in (_ <= X)%N]card_ord max_card. Qed.

(** X8: on nonnegative entries the weights do not count: [meanDegree] is
    the mean number of positive entries per row, a number between 0 and
    [N]. *)
Theorem meanDegree_ignores_weights n (A : 'M[F]_n) :
  (0 < n)%N -> (forall i j, 0 <= A i j) ->
  meanDegree A = Some ((\sum_i degree A i)%:R / n%:R) /\
  0 <= ((\sum_i degree A i)%:R / n%:R : F) <= n%:R.
Proof.
move=> n_gt0 A_ge0; split; first exact: meanDegree_nonneg.
rewrite divr_ge0 ?ler0n //= ler_pdivrMr ?ltr0n // -natrM ler_nat.
rewrite -[X in (_ <= X * _)%N]card_ord -sum_nat_const.
by apply: leq_sum => i _; apply: degree_le.
Qed.

Lemma nonneg_gt0 n (A : 'M[F]_n) i j :
  (forall i0 j0, 0 <= A i0 j0) -> (0 < A i j) = (A i j != 0).
Proof. by move=> A_ge0; rewrite lt_def A_ge0 andbT. Qed.

Lemma meanDegree_edges n (A : 'M[F]_n) :
  (0 < n)%N -> (forall i j, 0 <= A i j) ->
  symmetric_mx A -> (forall i, A i i = 0) ->
  meanDegree A = Some ((2 * #|edges A|)%:R / n%:R).
Proof.
move=> n_gt0 A_ge0 symA diagA.
rewrite meanDegree_nonneg // sum_degree -card_adjacent_pairs //.
congr (Some (_%:R / _)); apply: eq_card => e.
by rewrite !inE nonneg_gt0.
Qed.

(** X9: for a weighted undirected graph without loops (nonnegative
    symmetric matrix with a zero diagonal), [meanDegree] is twice the number
    of edges over the number of nodes, whatever the weights. *)
Theorem meanDegree_weighted_graph n (A : 'M[F]_n) :
  (0 < n)%N -> (forall i j, 0 <= A i j) ->
  symmetric_mx A -> (forall i, A i i = 0) ->
  meanDegree A = Some ((2 * #|edges A|)%:R / n%:R).
Proof. exact: meanDegree_edges. Qed.

Lemma degree_rowStochastic n (A R : 'M[F]_n) i :
  (forall i0 j0, 0 <= A i0 j0) -> rowStochastic A = Some R ->
  degree R i = degree A i.
Proof.
move=> A_ge0 some_R; apply: eq_card => j; rewrite !inE.
have [s_neq0 ->] := rowStochastic_some i j some_R.
have s_gt0 : 0 < row_sum A i by rewrite lt_def s_neq0 row_sum_ge0.
by rewrite pmulr_lgt0 // invr_gt0.
Qed.

(** X10: normalizing a nonnegative matrix does not change its mean
    degree. *)
Theorem meanDegree_rowStochastic n (A R : 'M[F]_n) :
  (forall i j, 0 <= A i j) -> rowStochastic A = Some R ->
  meanDegree R = meanDegree A.
Proof.
case: n A R => [|n] A R A_ge0 some_R //.
have n_gt0 : (0 < n.+1)%N by [].
have R_ge0 i j : 0 <= R i j.
  have [s_neq0 ->] := rowStochastic_some i j some_R.
  by rewrite divr_ge0 ?row_sum_ge0.
rewrite !meanDegree_nonneg //; congr (Some (_%:R / _)).
by apply: eq_bigr => i _; apply: degree_rowStochastic some_R.
Qed.

End MeanDegreeWeights.

Lemma meanDegree_sums_negative_entries_witness :
  (0 < 2)%N /\
  meanDegree ex_signed =
  Some ((\sum_i ((degree ex_signed i)%:R
                 + \sum_(j | ex_signed i j < 0) ex_signed i j)) / 2%:R).
Proof. by split=> //; apply: meanDegree_sums_negative_entries. Defined.

Lemma ex_rows_ge0 i j : 0 <= ex_rows i j.
Proof. by rewrite mxE; case: ifP. Qed.

Lemma meanDegree_ignores_weights_witness :
  [/\ (0 < 2)%N, forall i j, 0 <= ex_rows i j,
      meanDegree ex_rows = Some ((\sum_i degree ex_rows i)%:R / 2%:R)
    & 0 <= ((\sum_i degree ex_rows i)%:R / 2%:R : rat) <= 2%:R].
Proof.
case: (@meanDegree_ignores_weights _ 2 ex_rows isT ex_rows_ge0) => md bounds.
by split=> //; apply: ex_rows_ge0.
Defined.

Lemma meanDegree_weighted_graph_witness :
  [/\ (0 < 2)%N, forall i j, 0 <= ex_wpath i j, symmetric_mx ex_wpath,
      forall i, ex_wpath i i = 0
    & meanDegree ex_wpath = Some ((2 * #|edges ex_wpath|)%:R / 2%:R)].
Proof.
have A_ge0 i j : 0 <= ex_wpath i j by rewrite mxE; case: ifP.
have symA : symmetric_mx ex_wpath by move=> i j; rewrite !mxE eq_sym.
have diagA i : ex_wpath i i = 0 by rewrite mxE eqxx.
by split=> //; apply: meanDegree_weighted_graph.
Defined.

Lemma meanDegree_rowStochastic_witness :
  [/\ forall i j, 0 <= ex_rows i j,
      rowStochastic ex_rows =
      Some (\matrix_(i, j) (ex_rows i j / row_sum ex_rows i))
    & meanDegree (\matrix_(i, j) (ex_rows i j / row_sum ex_rows i)) =
      meanDegree ex_rows].
Proof.
have s_neq0 i : row_sum ex_rows i != 0 by rewrite ex_rows_sum.
have some_R := rowStochastic_defined s_neq0.
split=> //; first exact: ex_rows_ge0.
exact: (meanDegree_rowStochastic ex_rows_ge0 some_R).
Defined.

(** ** randomSpanningTree: the path, its weights and the draws it uses *)

Section TreeShape.

Variable F : realFieldType.
Variable draws : nat -> F.
Implicit Types (n c : nat) (rw : bool).

Lemma val_range_from1 n : [seq val i | i <- range_from1 n] = iota 1 n.-1.
Proof.
rewrite /range_from1 -(@filter_map _ _ val (fun k => (0 < k)%N)) val_enum_ord.
case: n => [|n] //=; rewrite (@eq_in_filter _ _ predT) ?filter_predT //.
by move=> k; rewrite mem_iota => /andP[].
Qed.

Lemma size_range_from1 n : size (range_from1 n) = n.-1.
Proof. by rewrite -(size_map val) val_range_from1 size_iota. Qed.

Lemma index_range_from1 n (i : 'I_n) :
  (0 < i)%N -> index i (range_from1 n) = i.-1.
Proof.
move=> i_gt0; rewrite -(index_map val_inj) val_range_from1.
have lt_i : (i.-1 < n.-1)%N.
  by rewrite -ltnS !prednK // (leq_trans i_gt0 (ltnW (ltn_ord i))).
have -> : val i = nth 0%N (iota 1 n.-1) i.-1.
  by rewrite nth_iota // add1n prednK.
by rewrite index_uniq ?size_iota ?iota_uniq.
Qed.

Lemma tree_fold_state n rw (nodes : 'S_n) l (A : 'M[F]_n) c :
  (foldl (tree_body draws rw nodes) (A, c) l).2 =
  if rw then (c + size l)%N else c.
Proof.
elim: l A c => [|i l IH] A c /=; first by rewrite addn0 if_same.
by rewrite tree_bodyE IH; case: (rw) => //; rewrite addSnnS.
Qed.

(** X11: [randomSpanningTree] draws [N - 1] weights from the generator when
    weights are asked for, and none otherwise. *)
Theorem randomSpanningTree_draws n rw (nodes : 'S_n) c :
  (randomSpanningTree draws rw nodes c).2 = if rw then (c + n.-1)%N else c.
Proof. by rewrite /randomSpanningTree tree_fold_state size_range_from1. Qed.

Lemma set_pair_linked n (A : 'M[F]_n) p q w a b :
  ((a == p) && (b == q)) || ((a == q) && (b == p)) ->
  set_entry (set_entry A p q w) q p w a b = w.
Proof.
by rewrite !set_entryE orbC; case: ((a == q) && _) => //= ->.
Qed.

Lemma set_pair_other n (A : 'M[F]_n) p q w a b :
  ~~ (((a == p) && (b == q)) || ((a == q) && (b == p))) ->
  set_entry (set_entry A p q w) q p w a b = A a b.
Proof.
by rewrite !set_entryE negb_or => /andP[/negPf -> /negPf ->].
Qed.

(** An entry that one turn of the loop at most writes gets the weight of
    that turn. *)
Lemma tree_fold_entry n rw (nodes : 'S_n) l (A : 'M[F]_n) c a b :
  (count (fun i => tree_link nodes i a b) l <= 1)%N ->
  (foldl (tree_body draws rw nodes) (A, c) l).1 a b =
  if has (fun i => tree_link nodes i a b) l
  then tree_weight draws rw (c + find (fun i => tree_link nodes i a b) l)
  else A a b.
Proof.
elim: l A c => [|i l IH] A c //=; rewrite tree_bodyE.
case link_i: (tree_link nodes i a b) => /=.
  rewrite add1n ltnS leqn0 addn0 => count0; rewrite IH ?(eqP count0) //.
  by rewrite has_count (eqP count0) /= (set_pair_linked _ _ link_i).
have no_link := negbT link_i.
rewrite add0n => /IH ->; rewrite (set_pair_other _ _ no_link).
by rewrite /tree_weight; case: (rw) => //; rewrite addSnnS.
Qed.

Lemma tree_link_consecutive n (nodes : 'S_n) (i j : 'I_n) :
  (0 < i)%N -> (0 < j)%N ->
  tree_link nodes j (nodes (ord_pred i)) (nodes i) = (j == i).
Proof.
move=> i_gt0 j_gt0; rewrite /tree_link !(inj_eq perm_inj).
have [->|neq_ji] := eqVneq j i; first by rewrite !eqxx.
rewrite andbF /=.
apply/negP => /andP[/eqP/(congr1 val) /= eq_j /eqP/(congr1 val) /= eq_i].
have := leq_pred j; rewrite -eq_i -eq_j.
by rewrite leqNgt ltn_predL i_gt0.
Qed.

Lemma tree_entry n rw (nodes : 'S_n) c (i : 'I_n) :
  (0 < i)%N ->
  (randomSpanningTree draws rw nodes c).1 (nodes (ord_pred i)) (nodes i) =
  tree_weight draws rw (c + i.-1).
Proof.
move=> i_gt0; rewrite /randomSpanningTree.
have linkE : {in range_from1 n,
    (fun j => tree_link nodes j (nodes (ord_pred i)) (nodes i)) =1 pred1 i}.
  by move=> j; rewrite mem_filter => /andP[j_gt0 _]; apply: tree_link_consecutive.
have uniq_l : uniq (range_from1 n) by rewrite filter_uniq ?enum_uniq.
have i_in : i \in range_from1 n by rewrite mem_filter i_gt0 mem_enum.
have count1 :
    (count (fun j => tree_link nodes j (nodes (ord_pred i)) (nodes i))
           (range_from1 n) <= 1)%N.
  by rewrite (eq_in_count linkE) count_uniq_mem // leq_b1.
rewrite tree_fold_entry //.
by rewrite (eq_in_has linkE) has_pred1 i_in (eq_in_find linkE) -/(index _ _)
           index_range_from1.
Qed.

Lemma tree_fold_untouched n rw (nodes : 'S_n) l (A : 'M[F]_n) c a b :
  ~~ has (fun i => tree_link nodes i a b) l ->
  (foldl (tree_body draws rw nodes) (A, c) l).1 a b = A a b.
Proof.
move=> no_link.
have count0 : (count (fun i => tree_link nodes i a b) l <= 1)%N.
  by move: no_link; rewrite has_count -leqNgt leqn0 => /eqP ->.
by rewrite tree_fold_entry // (negPf no_link).
Qed.

(** X12: the entries of the matrix that [randomSpanningTree] returns.  The
    turn [i] of the loop puts its weight, 1 or the [(i - 1)]-th value drawn
    after the permutation, on both entries between [nodes[i - 1]] and
    [nodes[i]]; every other entry is 0. *)
Theorem randomSpanningTree_entries n rw (nodes : 'S_n) c :
  (forall i : 'I_n, (0 < i)%N ->
     (randomSpanningTree draws rw nodes c).1 (nodes (ord_pred i)) (nodes i)
       = tree_weight draws rw (c + i.-1) /\
     (randomSpanningTree draws rw nodes c).1 (nodes i) (nodes (ord_pred i))
       = tree_weight draws rw (c + i.-1)) /\
  (forall a b,
     ~~ [exists i : 'I_n, (0 < i)%N && tree_link nodes i a b] ->
     (randomSpanningTree draws rw nodes c).1 a b = 0).
Proof.
split=> [i i_gt0|a b no_link].
  have /= symT := tree_symmetric draws rw nodes c.
  by split; rewrite 1?(symT (nodes i)) tree_entry.
rewrite /randomSpanningTree tree_fold_untouched ?mxE //.
apply: contra no_link => /hasP[i]; rewrite mem_filter => /andP[i_gt0 _] link_i.
by apply/existsP; exists i; rewrite i_gt0.
Qed.

(** X13: with nonzero weights, two nodes are joined by an edge exactly when
    they stand side by side in the permutation. *)
Theorem randomSpanningTree_is_path n rw (nodes : 'S_n) c (i j : 'I_n) :
  (rw -> forall k, draws k != 0) ->
  adjacent (randomSpanningTree draws rw nodes c).1 (nodes i) (nodes j) =
  (i.+1 == j) || (j.+1 == i).
Proof.
move=> draws_neq0; rewrite tree_adjacent //.
apply/existsP/orP=> [[k /andP[k_gt0]]|].
  rewrite /tree_link !(inj_eq perm_inj) -!val_eqE /=.
  by case/orP=> /andP[/eqP -> /eqP ->]; rewrite prednK // eqxx; [left | right].
case=> [eq_j|eq_i].
  exists j; rewrite -(eqP eq_j) /= /tree_link !(inj_eq perm_inj) -!val_eqE /=.
  by rewrite -(eqP eq_j) /= !eqxx.
exists i; rewrite -(eqP eq_i) /= /tree_link !(inj_eq perm_inj) -!val_eqE /=.
by rewrite -(eqP eq_i) /= !eqxx orbT.
Qed.

Lemma tree_fold_nonneg n rw (nodes : 'S_n) l (A : 'M[F]_n) c :
  (rw -> forall k, 0 <= draws k) -> (forall a b, 0 <= A a b) ->
  forall a b, 0 <= (foldl (tree_body draws rw nodes) (A, c) l).1 a b.
Proof.
move=> draws_ge0; elim: l A c => [|i l IH] A c //= A_ge0.
rewrite tree_bodyE; apply: IH => a b; rewrite !set_entryE.
have w_ge0 : 0 <= tree_weight draws rw c.
  by rewrite /tree_weight; case: (rw) draws_ge0 => // ->.
by do 2![case: ifP => // _].
Qed.

Lemma tree_nonneg n rw (nodes : 'S_n) c a b :
  (rw -> forall k, 0 <= draws k) ->
  0 <= (randomSpanningTree draws rw nodes c).1 a b.
Proof.
by move=> draws_ge0; apply: tree_fold_nonneg => // a0 b0; rewrite mxE.
Qed.

Lemma meanDegree_tree n rw (nodes : 'S_n) c :
  (0 < n)%N -> (rw -> forall k, 0 < draws k) ->
  meanDegree (randomSpanningTree draws rw nodes c).1 =
  Some ((2 * n.-1)%:R / n%:R).
Proof.
move=> n_gt0 draws_gt0.
have draws_ge0 : rw -> forall k, 0 <= draws k.
  by move=> /draws_gt0 gt0 k; apply: ltW.
have draws_neq0 : rw -> forall k, draws k != 0.
  by move=> /draws_gt0 gt0 k; rewrite gt_eqF.
rewrite meanDegree_edges ?tree_card_edges //.
- by move=> a b; apply: tree_nonneg.
- exact: tree_symmetric.
- exact: tree_diagonal.
Qed.

(** X14: the mean degree of the spanning tree on [N >= 1] nodes is
    [2 (N - 1) / N], with positive weights as without weights. *)
Theorem meanDegree_randomSpanningTree n rw (nodes : 'S_n) c :
  (0 < n)%N -> (rw -> forall k, 0 < draws k) ->
  meanDegree (randomSpanningTree draws rw nodes c).1 =
  Some ((2 * n.-1)%:R / n%:R).
Proof. exact: meanDegree_tree. Qed.

End TreeShape.

Lemma randomSpanningTree_is_path_witness :
  (true -> forall k, ex_draws k != 0) /\
  adjacent (randomSpanningTree ex_draws true (1%g : 'S_3) 0).1
           ((1%g : 'S_3) ord0) ((1%g : 'S_3) (lift ord0 ord0)).
Proof.
have draws_neq0 : true -> forall k, ex_draws k != 0 by [].
by split=> //; rewrite randomSpanningTree_is_path.
Defined.

Lemma meanDegree_randomSpanningTree_witness :
  [/\ (0 < 3)%N, true -> forall k, 0 < ex_draws k
    & meanDegree (randomSpanningTree ex_draws true (1%g : 'S_3) 0).1 =
      Some ((2 * 2)%:R / 3%:R)].
Proof.
have draws_gt0 : true -> forall k, 0 < ex_draws k by [].
by split=> //; apply: meanDegree_randomSpanningTree.
Defined.

Section TreeState.

Variable F : realFieldType.
Variable draws : nat -> F.

Lemma randomSpanningTree_state n rw (nodes : 'S_n) c :
  (randomSpanningTree draws rw nodes c).2 = if rw then (c + n.-1)%N else c.
Proof. by rewrite /randomSpanningTree tree_fold_state size_range_from1. Qed.

End TreeState.

(** ** gnp: the graph it returns *)

Section GnpGraph.

Variable F : realFieldType.
Variable draws : nat -> F.
Implicit Types (n c : nat) (p : F).

Lemma gnp_body_binary n p (i j : 'I_n) (A : 'M[F]_n) c :
  gnp_body draws p false i (A, c) j =
  (if draws c < p then set_entry (set_entry A i j 1) j i 1 else A, c.+1).
Proof. by rewrite gnp_bodyE /tree_weight; case: ifP. Qed.

(** Without weights, an entry ends at 1 as soon as one of the turns that
    write it has its draw below [p]. *)
Lemma gnp_fold_binary n p (l : seq ('I_n * 'I_n)) (A : 'M[F]_n) c a b :
  (foldl (fun st ij => gnp_body draws p false ij.1 st ij.2) (A, c) l).1 a b =
  if has (fun k => (draws (c + k) < p)
                   && ((nth (a, b) l k == (a, b)) || (nth (a, b) l k == (b, a))))
         (iota 0 (size l))
  then 1 else A a b.
Proof.
elim: l A c => [|[i j] l IH] A c //=.
rewrite gnp_body_binary IH addn0 (iotaDl 1 0) has_map.
rewrite (@eq_has _ _ (fun k => (draws (c.+1 + k) < p)
    && ((nth (a, b) l k == (a, b)) || (nth (a, b) l k == (b, a)))));
  first by move=> k /=; rewrite add1n addSnnS.
case: (has _ _); first by rewrite orbT.
rewrite orbF !xpair_eqE [i == a]eq_sym [j == b]eq_sym [i == b]eq_sym.
rewrite [j == a]eq_sym [(b == i) && _]andbC.
case: ifP => _ //=.
case link: (((a == i) && (b == j)) || ((a == j) && (b == i))).
  by rewrite set_pair_linked.
by rewrite set_pair_other ?link.
Qed.

Lemma gnp_binary_entry n p (nodes : 'S_n) c a b :
  (gnp_edges draws p false nodes c).1 a b =
  if (draws (c + (a * n + b)) < p) || (draws (c + (b * n + a)) < p) then 1
  else (randomSpanningTree draws false nodes c).1 a b.
Proof.
rewrite /gnp_edges gnp_loops_pairs.
rewrite [randomSpanningTree _ _ _ _]surjective_pairing gnp_fold_binary.
rewrite randomSpanningTree_state; congr (if _ then _ else _).
have uniq_l := gnp_pairs_uniq n.
apply/hasP/orP=> [[k]|fired].
  rewrite mem_iota /= add0n => lt_k /andP[fired_k /orP[] /eqP eq_k].
  - by left; rewrite -(index_gnp_pairs a b) -eq_k index_uniq.
  - by right; rewrite -(index_gnp_pairs b a) -eq_k index_uniq.
case: fired => fired.
  exists (index (a, b) (gnp_pairs n)).
    by rewrite mem_iota /= add0n index_mem mem_gnp_pairs.
  by rewrite nth_index ?mem_gnp_pairs // eqxx index_gnp_pairs fired.
exists (index (b, a) (gnp_pairs n)).
  by rewrite mem_iota /= add0n index_mem mem_gnp_pairs.
by rewrite nth_index ?mem_gnp_pairs // eqxx orbT index_gnp_pairs fired.
Qed.

Lemma gnp_binary_returns n p (nodes : 'S_n) c :
  gnp draws p false nodes c =
  (Some (gnp_edges draws p false nodes c).1, (c + n * n)%N).
Proof.
rewrite /gnp [gnp_edges _ _ _ _ _]surjective_pairing; congr (_, _).
rewrite /gnp_edges gnp_loops_pairs gnp_fold_counter // size_gnp_pairs.
by rewrite randomSpanningTree_state.
Qed.

(** X15: without weights, the entry [(i, j)] of the matrix that [gnp]
    returns is 1 when the draw made for the pair [(i, j)] or the one made for
    [(j, i)] is below [p], and the entry of the spanning tree otherwise; the
    loops use [N * N] draws. *)
Theorem gnp_binary_entries n p (nodes : 'S_n) c :
  exists2 G, gnp draws p false nodes c = (Some G, (c + n * n)%N)
    & forall i j,
        G i j =
        if (draws (c + (i * n + j)) < p) || (draws (c + (j * n + i)) < p)
        then 1 else (randomSpanningTree draws false nodes c).1 i j.
Proof.
exists (gnp_edges draws p false nodes c).1; first exact: gnp_binary_returns.
by move=> i j; apply: gnp_binary_entry.
Qed.

Lemma tree_fold_binary n (nodes : 'S_n) l (A : 'M[F]_n) c :
  binary_mx A -> binary_mx (foldl (tree_body draws false nodes) (A, c) l).1.
Proof.
elim: l A c => [|i l IH] A c //= binA.
rewrite tree_bodyE; apply: IH => a b; rewrite !set_entryE /tree_weight.
by do 2![case: ifP => _; first by rewrite eqxx orbT].
Qed.

Lemma tree_binary n (nodes : 'S_n) c :
  binary_mx (randomSpanningTree draws false nodes c).1.
Proof. by apply: tree_fold_binary => a b; rewrite mxE eqxx. Qed.

Lemma connected_sub n (A B : 'M[F]_n) :
  (forall a b, adjacent A a b -> adjacent B a b) ->
  connected A -> connected B.
Proof.
move=> subAB connA a b; apply: connect_sub (connA a b) => x y /subAB.
exact: connect1.
Qed.

(** X16: without weights, the matrix that [gnp] returns is symmetric, made
    of zeros and ones, keeps every edge of the spanning tree and is
    connected, whatever [p] and the draws. *)
Theorem gnp_binary_connected n p (nodes : 'S_n) c :
  exists2 G, gnp draws p false nodes c = (Some G, (c + n * n)%N)
    & [/\ symmetric_mx G, binary_mx G,
          forall i j,
            adjacent (randomSpanningTree draws false nodes c).1 i j ->
            adjacent G i j
        & connected G].
Proof.
exists (gnp_edges draws p false nodes c).1; first exact: gnp_binary_returns.
have keeps i j :
    adjacent (randomSpanningTree draws false nodes c).1 i j ->
    adjacent (gnp_edges draws p false nodes c).1 i j.
  by rewrite /adjacent gnp_binary_entry; case: ifP => // _; rewrite oner_neq0.
split=> //.
- move=> i j; rewrite !gnp_binary_entry orbC.
  by rewrite (tree_symmetric draws false nodes c).
- move=> i j; rewrite gnp_binary_entry; case: ifP => _.
    by rewrite eqxx orbT.
  exact: tree_binary.
- by apply: connected_sub keeps _; apply: tree_connected.
Qed.

(** When no draw is below [p] the loops leave the matrix as it is. *)
Lemma gnp_fold_idle n p rw (l : seq ('I_n * 'I_n)) (st : 'M[F]_n * nat) :
  (forall k, p <= draws k) ->
  foldl (fun st1 ij => gnp_body draws p rw ij.1 st1 ij.2) st l =
  (st.1, (st.2 + size l)%N).
Proof.
move=> idle; elim: l st => [|[i j] l IH] [A c] /=; first by rewrite addn0.
by rewrite gnp_bodyE ltNge idle /= IH /= addSnnS.
Qed.

(** X17: when no draw is below [p] (as for [p = 0]), [gnp] returns the
    spanning tree itself, normalized when weights are asked for; the loops
    still use [N * N] draws. *)
Theorem gnp_without_extra_edges n p rw (nodes : 'S_n) c :
  (forall k, p <= draws k) ->
  gnp draws p rw nodes c =
  (if rw then rowStochastic (randomSpanningTree draws false nodes c).1
   else Some (randomSpanningTree draws false nodes c).1,
   (c + n * n)%N).
Proof.
move=> idle; rewrite /gnp /gnp_edges gnp_loops_pairs gnp_fold_idle //.
by rewrite size_gnp_pairs randomSpanningTree_state.
Qed.

(** X18: without weights, when every draw is below [p] (as for [p = 1]),
    [gnp] returns the matrix of ones: every pair of nodes is joined, and
    every node carries a loop. *)
Theorem gnp_complete n p (nodes : 'S_n) c :
  (forall k, draws k < p) ->
  exists2 G, gnp draws p false nodes c = (Some G, (c + n * n)%N)
           & forall i j, G i j = 1.
Proof.
move=> fired.
exists (gnp_edges draws p false nodes c).1; first exact: gnp_binary_returns.
by move=> i j; rewrite gnp_binary_entry fired.
Qed.

End GnpGraph.

Lemma gnp_without_extra_edges_witness :
  (forall k, 0 <= ex_draws k) /\
  gnp ex_draws 0 false (1%g : 'S_3) 0 =
  (Some (randomSpanningTree ex_draws false (1%g : 'S_3) 0).1, 9%N).
Proof.
have idle k : 0 <= ex_draws k by [].
by split=> //; rewrite (gnp_without_extra_edges _ _ _ idle).
Defined.

Lemma gnp_complete_witness :
  (forall k, ex_draws k < 1) /\
  exists2 G, gnp ex_draws 1 false (1%g : 'S_3) 0 = (Some G, (0 + 3 * 3)%N)
           & forall i j, G i j = 1.
Proof.
have fired k : ex_draws k < 1 by [].
by split=> //; apply: gnp_complete.
Defined.

(** ** gnp with weights *)

Section GnpWeighted.

Variable F : realFieldType.
Variable draws : nat -> F.
Hypothesis draws_gt0 : forall k, 0 < draws k.
Implicit Types (n c : nat) (p : F).

Lemma gnp_weight_gt0 rw c : 0 < tree_weight draws rw c.
Proof. by rewrite /tree_weight; case: rw. Qed.

Lemma gnp_fold_weighted n p rw (l : seq ('I_n * 'I_n)) (st : 'M[F]_n * nat) :
  (forall a b, 0 <= st.1 a b) ->
  forall a b,
    0 <= (foldl (fun st1 ij => gnp_body draws p rw ij.1 st1 ij.2) st l).1 a b
    /\ (adjacent st.1 a b ->
        adjacent
          (foldl (fun st1 ij => gnp_body draws p rw ij.1 st1 ij.2) st l).1
          a b).
Proof.
elim: l st => [|[i j] l IH] [A c] //= A_ge0 a b.
rewrite gnp_bodyE; case: ifP => _; last exact: IH.
have w_gt0 := gnp_weight_gt0 rw c.+1.
set A1 := set_entry _ _ _ _.
have A1_ge0 a0 b0 : 0 <= A1 a0 b0.
  rewrite /A1 !set_entryE.
  by do 2![case: ifP => _; first exact: ltW].
have [ge0 keeps] := IH (A1, if rw then c.+2 else c.+1) A1_ge0 a b.
split=> // adjA; apply: keeps.
rewrite /adjacent /= /A1 !set_entryE.
by do 2![case: ifP => _; first by rewrite gt_eqF].
Qed.

Lemma connect_neighbour n (e : rel 'I_n) a b :
  connect e a b -> a != b -> exists x, e a x.
Proof.
case/connectP=> -[|x q] /=; first by move=> _ ->; rewrite eqxx.
by case/andP=> eax _ _ _; exists x.
Qed.

Lemma other_node n (a : 'I_n) : (1 < n)%N -> exists b : 'I_n, a != b.
Proof.
case: n a => [|[|n]] a // _.
have [a0|a_neq0] := eqVneq a ord0; last by exists ord0.
by exists (lift ord0 ord0); rewrite a0.
Qed.

Lemma gnp_weighted_edges n p (nodes : 'S_n) c :
  [/\ forall a b, 0 <= (gnp_edges draws p true nodes c).1 a b,
      forall a b, adjacent (randomSpanningTree draws false nodes c).1 a b ->
                  adjacent (gnp_edges draws p true nodes c).1 a b
    & (1 < n)%N -> forall a, 0 < row_sum (gnp_edges draws p true nodes c).1 a].
Proof.
have T_ge0 a b : 0 <= (randomSpanningTree draws false nodes c).1 a b.
  exact: tree_nonneg.
have inv a b := gnp_fold_weighted p true (gnp_pairs n) T_ge0 a b.
have A_ge0 a b : 0 <= (gnp_edges draws p true nodes c).1 a b.
  by rewrite /gnp_edges gnp_loops_pairs; case: (inv a b).
have keeps a b :
    adjacent (randomSpanningTree draws false nodes c).1 a b ->
    adjacent (gnp_edges draws p true nodes c).1 a b.
  by rewrite /gnp_edges gnp_loops_pairs; case: (inv a b).
split=> // n_gt1 a.
have [b neq_ab] := other_node a n_gt1.
have connT : connect (adjacent (randomSpanningTree draws false nodes c).1) a b.
  exact: tree_connected.
have [x /keeps adj_x] := connect_neighbour connT neq_ab.
apply: lt_le_trans (entry_le_row_sum a x A_ge0).
by rewrite lt_def A_ge0 andbT.
Qed.

(** X19: with weights, on at least two nodes and for positive draws, [gnp]
    returns a matrix with entries between 0 and 1 whose rows sum to 1; it
    has an edge wherever the spanning tree has one, and it is connected. *)
Theorem gnp_weighted_connected n p (nodes : 'S_n) c :
  (1 < n)%N ->
  exists2 G, (gnp draws p true nodes c).1 = Some G
    & [/\ forall i, row_sum G i = 1, forall i j, 0 <= G i j <= 1,
          forall i j,
            adjacent (randomSpanningTree draws false nodes c).1 i j ->
            adjacent G i j
        & connected G].
Proof.
move=> n_gt1; have [A_ge0 keeps s_gt0] := gnp_weighted_edges p nodes c.
rewrite /gnp; case: (gnp_edges _ _ _ _ _) A_ge0 keeps s_gt0 => A c1 /=.
move=> A_ge0 keeps /(_ n_gt1) s_gt0.
have s_neq0 i : row_sum A i != 0 by rewrite gt_eqF.
have s_ge0 i : 0 <= row_sum A i by apply: ltW.
exists (\matrix_(i, j) (A i j / row_sum A i)).
  exact: rowStochastic_defined.
have keepsG i j :
    adjacent (randomSpanningTree draws false nodes c).1 i j ->
    adjacent (\matrix_(i0, j0) (A i0 j0 / row_sum A i0)) i j.
  move=> /keeps; rewrite /adjacent mxE mulf_eq0 invr_eq0.
  by rewrite (negPf (s_neq0 i)) orbF.
split=> //.
- by move=> i; apply: row_sum_normalized.
- move=> i j; rewrite mxE divr_ge0 //=.
  by rewrite ler_pdivrMr // mul1r entry_le_row_sum.
- by apply: connected_sub keepsG _; apply: tree_connected.
Qed.

End GnpWeighted.

Lemma gnp_weighted_connected_witness :
  (forall k, 0 < ex_draws k) /\ (1 < 3)%N /\
  exists2 G, (gnp ex_draws 1 true (1%g : 'S_3) 0).1 = Some G
    & [/\ forall i, row_sum G i = 1, forall i j, 0 <= G i j <= 1,
          forall i j,
            adjacent (randomSpanningTree ex_draws false (1%g : 'S_3) 0).1 i j
            -> adjacent G i j
        & connected G].
Proof.
have draws_gt0 k : 0 < ex_draws k by [].
by do 2![split=> //]; apply: gnp_weighted_connected.
Defined.

(** ** expectedEquilibrium: failure, linearity, consensus *)

Section EquilibriumMore.

Variable F : realFieldType.
Implicit Types (n : nat).

Lemma expectedEquilibrium_return n (A : 'M[F]_n) (s x : 'cV[F]_n) :
  expectedEquilibrium A s = Return x ->
  1%:M - (A - diag_part A) \in unitmx /\
  x = invmx (1%:M - (A - diag_part A)) *m diag_part A *m s.
Proof.
rewrite /expectedEquilibrium /inv; case: ifP => // M_unit [<-].
by split.
Qed.

Lemma off_diagonal_entry n (A : 'M[F]_n) i j :
  (A - diag_part A) i j = if i == j then 0 else A i j.
Proof.
rewrite !mxE; case: eqP => [->|_]; first by rewrite mulr1n subrr.
by rewrite mulr0n subr0.
Qed.



(** X21: the equilibrium is linear in the beliefs. *)
Theorem expectedEquilibrium_linear n (A : 'M[F]_n) (a : F)
    (s1 s2 x1 x2 : 'cV[F]_n) :
  expectedEquilibrium A s1 = Return x1 ->
  expectedEquilibrium A s2 = Return x2 ->
  expectedEquilibrium A (a *: s1 + s2) = Return (a *: x1 + x2).
Proof.
move=> /expectedEquilibrium_return[M_unit ->].
move=> /expectedEquilibrium_return[_ ->].
by rewrite expectedEquilibrium_unit // mulmxDr -scalemxAr.
Qed.

(** X22: when the rows of [A] sum to 1 and the solver succeeds, a belief
    shared by all the nodes is its own equilibrium. *)
Theorem expectedEquilibrium_consensus n (A : 'M[F]_n) (v : F)
    (x : 'cV[F]_n) :
  (forall i, row_sum A i = 1) ->
  expectedEquilibrium A (const_mx v) = Return x -> x = const_mx v.
Proof.
move=> rows1 /expectedEquilibrium_return[M_unit ->].
have fp : (1%:M - (A - diag_part A)) *m (const_mx v : 'cV_n)
          = diag_part A *m const_mx v.
  apply/fixed_point_system; rewrite -mulmxDl addrC subrK.
  apply/colP => i; rewrite !mxE -[LHS]mul1r -(rows1 i) /row_sum mulr_suml.
  by apply: eq_bigr => j _; rewrite mxE.
by rewrite -mulmxA -fp mulmxA mulVmx // mul1mx.
Qed.

(** X23: a node that gives no weight to the others ends at its own belief
    times its own weight, whatever the rest of the network does. *)
Theorem expectedEquilibrium_isolated_node n (A : 'M[F]_n)
    (s x : 'cV[F]_n) i :
  (forall j, j != i -> A i j = 0) ->
  expectedEquilibrium A s = Return x -> x i 0 = A i i * s i 0.
Proof.
move=> rowi /expectedEquilibrium_return[M_unit xE].
have /fixed_point_system fp :
    (1%:M - (A - diag_part A)) *m x = diag_part A *m s.
  by rewrite xE !mulmxA mulmxV // mul1mx.
rewrite [LHS](congr1 (fun y : 'cV_n => y i 0) fp) [in LHS]mxE.
rewrite /diag_part mul_diag_mx [in X in X + _]mxE mxE.
rewrite [X in _ + X]mxE big1 ?addr0 // => j _.
rewrite off_diagonal_entry; case: eqP => [_|/eqP neq_ij]; first by rewrite mul0r.
by rewrite rowi ?mul0r // eq_sym.
Qed.

End EquilibriumMore.



Lemma ex_follow_return (s : 'cV[rat]_2) :
  expectedEquilibrium ex_follow s = Return (ex_follow_solution s).
Proof. exact: expectedEquilibrium_unit ex_follow_unit. Qed.

Lemma expectedEquilibrium_linear_witness :
  [/\ expectedEquilibrium ex_follow ex_beliefs =
      Return (ex_follow_solution ex_beliefs),
      expectedEquilibrium ex_follow ex_shared =
      Return (ex_follow_solution ex_shared)
    & expectedEquilibrium ex_follow (2%:R *: ex_beliefs + ex_shared) =
      Return (2%:R *: ex_follow_solution ex_beliefs
              + ex_follow_solution ex_shared)].
Proof.
split; try exact: ex_follow_return.
exact: (expectedEquilibrium_linear 2%:R (ex_follow_return ex_beliefs)
          (ex_follow_return ex_shared)).
Defined.

Lemma ex_follow_rows i : row_sum ex_follow i = 1.
Proof.
rewrite /row_sum big_ord_recl big_ord1 !mxE.
by case: i => [[|[|i]]] lt_i.
Qed.

Lemma expectedEquilibrium_consensus_witness :
  [/\ forall i, row_sum ex_follow i = 1,
      expectedEquilibrium ex_follow ex_shared =
      Return (ex_follow_solution ex_shared)
    & ex_follow_solution ex_shared = ex_shared].
Proof.
split; [exact: ex_follow_rows | exact: ex_follow_return |].
exact: (expectedEquilibrium_consensus ex_follow_rows
          (ex_follow_return ex_shared)).
Defined.

Lemma ex_follow_row0 (j : 'I_2) : j != ord0 -> ex_follow ord0 j = 0.
Proof. by rewrite mxE -val_eqE /= => /negPf ->. Qed.

Lemma expectedEquilibrium_isolated_node_witness :
  [/\ forall j : 'I_2, j != ord0 -> ex_follow ord0 j = 0,
      expectedEquilibrium ex_follow ex_beliefs =
      Return (ex_follow_solution ex_beliefs)
    & ex_follow_solution ex_beliefs ord0 0
      = ex_follow ord0 ord0 * ex_beliefs ord0 0].
Proof.
split; [exact: ex_follow_row0 | exact: ex_follow_return |].
exact: (expectedEquilibrium_isolated_node ex_follow_row0
          (ex_follow_return ex_beliefs)).
Defined.

(** ** randomSpanningTree at a draw of zero *)

Section TreeZeroDraw.

Variable F : realFieldType.
Variable draws : nat -> F.

Lemma tree_fold_zero n (nodes : 'S_n) l c :
  (forall k, draws k = 0) ->
  (foldl (tree_body draws true nodes) (0, c) l).1 = 0.
Proof.
move=> draws0; elim: l c => [|i l IH] c //=.
rewrite tree_bodyE /tree_weight draws0.
have -> : set_entry (set_entry (0 : 'M[F]_n) (nodes (ord_pred i)) (nodes i) 0)
                    (nodes i) (nodes (ord_pred i)) 0 = 0.
  by apply/matrixP => a b; rewrite !set_entryE mxE !if_same.
exact: IH.
Qed.

Lemma not_adjacent_zero n (a b : 'I_n) : adjacent (0 : 'M[F]_n) a b = false.
Proof. by rewrite /adjacent mxE eqxx. Qed.

(** C2: with weights, when the values drawn are 0, [randomSpanningTree]
    returns the zero matrix: on two nodes or more it has no edge at all and
    is not connected. *)
Theorem randomSpanningTree_zero_draws n (nodes : 'S_n) c :
  (forall k, draws k = 0) -> (1 < n)%N ->
  [/\ (randomSpanningTree draws true nodes c).1 = 0,
      #|edges (randomSpanningTree draws true nodes c).1| = 0%N
    & ~ connected (randomSpanningTree draws true nodes c).1].
Proof.
move=> draws0 n_gt1.
have T0 : (randomSpanningTree draws true nodes c).1 = 0 by apply: tree_fold_zero.
rewrite T0; split=> // [|conn0].
  by apply: eq_card0 => e; rewrite inE not_adjacent_zero andbF.
case: n nodes c {draws0 T0} n_gt1 conn0 => [|n] // nodes c n_gt1 conn0.
have [b neq_b] := other_node (ord0 : 'I_n.+1) n_gt1.
have [x] := connect_neighbour (conn0 ord0 b) neq_b.
by rewrite not_adjacent_zero.
Qed.

End TreeZeroDraw.

Lemma randomSpanningTree_zero_draws_witness :
  [/\ forall k, ex_zero_draws k = 0, (1 < 2)%N,
      (randomSpanningTree ex_zero_draws true (1%g : 'S_2) 0).1 = 0,
      #|edges (randomSpanningTree ex_zero_draws true (1%g : 'S_2) 0).1| = 0%N
    & ~ connected (randomSpanningTree ex_zero_draws true (1%g : 'S_2) 0).1].
Proof.
have draws0 k : ex_zero_draws k = 0 by [].
have [T0 edges0 not_conn] :=
  @randomSpanningTree_zero_draws rat ex_zero_draws 2 1%g 0 draws0 isT.
by split.
Defined.
